(** * pico_prime: the prime benchmark of [prime.c]

    A shallow embedding of [primer] (the trial-division generator), of
    the averaging loop of [main] and of the two heap functions, with the
    properties of the written specification stated and settled against
    them, and further properties of the code after these.

    Conventions.
    - [uint32_t] values are integers in [Z] with the wrap-around modulo
      [2^32] written out ([wrap32]).
    - The array [primes] is local and uninitialised.  Its cells are a
      finite map from index to value holding the cells written during the
      call; a cell that was never written reads as whatever the stack
      held before, the function [garbage].  The map has no upper bound, so
      a store past the declared length [PRIMECOUNT] is visible as a key
      [>= PRIMECOUNT].
    - [double] and [float] are [spec_float] at precision 53 and 24; the
      operations are the IEEE 754 ones of [SpecFloat], rounding to
      nearest even.
    - Behaviour that C leaves undefined (division by zero, signed
      overflow, an out-of-range float to integer conversion) is the
      outcome [Undefined].
    - The loops take fuel; that enough fuel gives a result is proved
      where a result is claimed.
    - What is printed is a list of lines, kept by the monad [io] next to
      the outcome. *)

From Stdlib Require Import ZArith Znumtheory Lia Bool List.
From Stdlib Require Import Floats.SpecFloat.
From stdpp Require Import base option gmap.

Local Open Scope Z_scope.

(** ** Outcomes *)

Inductive result (A : Type) : Type :=
| Ok (a : A)
| Undefined
| OutOfFuel.

Arguments Ok {A} a.
Arguments Undefined {A}.
Arguments OutOfFuel {A}.

#[global] Instance result_bind : MBind result := fun A B k r =>
  match r with
  | Ok a => k a
  | Undefined => Undefined
  | OutOfFuel => OutOfFuel
  end.

(** ** Machine integers *)

Definition wrap32 (z : Z) : Z := z mod 2 ^ 32.

Definition wrap64 (z : Z) : Z := z mod 2 ^ 64.

Definition INT_MAX : Z := 2 ^ 31 - 1.

(** ** Floating point *)

Module Double.
Definition prec : Z := 53.
Definition emax : Z := 1024.

(** Conversion of an integer, rounded to nearest even. *)
Definition of_Z (z : Z) : spec_float := binary_normalize prec emax z 0 false.

Definition sqrt (x : spec_float) : spec_float := SFsqrt prec emax x.

Definition div (x y : spec_float) : spec_float := SFdiv prec emax x y.

(** The integer part of a finite value, towards zero. *)
Definition integer_part (x : spec_float) : option Z :=
  match x with
  | S754_zero _ => Some 0
  | S754_finite s m e =>
      Some (cond_Zopp s (match e with
                         | Z0 => Zpos m
                         | Zpos k => Zpos m * 2 ^ Zpos k
                         | Zneg k => Zpos m / 2 ^ Zpos k
                         end))
  | _ => None
  end.

(** [trunc]: the nearest integer not larger in magnitude, as a double. *)
Definition trunc (x : spec_float) : spec_float :=
  match x with
  | S754_finite s m (Zneg k) =>
      binary_normalize prec emax (cond_Zopp s (Zpos m / 2 ^ Zpos k)) 0 s
  | _ => x
  end.

(** Conversion to [uint32_t]: the fractional part is discarded; the
    behaviour is undefined when the integer part does not fit. *)
Definition to_uint32 (x : spec_float) : result Z :=
  match integer_part x with
  | Some z => if (0 <=? z) && (z <? 2 ^ 32) then Ok z else Undefined
  | None => Undefined
  end.
End Double.

Module Single.
Definition prec : Z := 24.
Definition emax : Z := 128.

Definition of_Z (z : Z) : spec_float := binary_normalize prec emax z 0 false.

(** Narrowing of a [double], rounded to nearest even. *)
Definition of_double (x : spec_float) : spec_float :=
  match x with
  | S754_finite s m e => binary_round prec emax s m e
  | _ => x
  end.

Definition add (x y : spec_float) : spec_float := SFadd prec emax x y.

Definition div (x y : spec_float) : spec_float := SFdiv prec emax x y.
End Single.

(** A float that is a number and is not below zero. *)
Definition nonnegative (x : spec_float) : bool :=
  match x with
  | S754_zero _ => true
  | S754_infinity s => negb s
  | S754_finite s _ _ => negb s
  | S754_nan => false
  end.

(** A float that is a number and is above zero. *)
Definition positive_float (x : spec_float) : bool :=
  match x with
  | S754_finite false _ _ => true
  | S754_infinity false => true
  | _ => false
  end.

(** ** What the program prints *)

Inductive line : Type :=
| FreeHeap (bytes : Z)
| LastPrime (p : Z)
| Runtime (seconds : spec_float)
| RuntimePassAverage (seconds : spec_float) (pass : Z) (average : spec_float).

(** A computation that prints: the lines printed up to its end or up to
    the point where it stops, and its outcome. *)
Record io (A : Type) : Type := mkIO {
  printed : list line;
  outcome : result A
}.

Arguments mkIO {A} printed outcome.
Arguments printed {A} i.
Arguments outcome {A} i.

#[global] Instance io_ret : MRet io := fun A a => mkIO [] (Ok a).

#[global] Instance io_bind : MBind io := fun A B k m =>
  match outcome m with
  | Ok a => mkIO (printed m ++ printed (k a)) (outcome (k a))
  | Undefined => mkIO (printed m) Undefined
  | OutOfFuel => mkIO (printed m) OutOfFuel
  end.

Definition printf (l : line) : io unit := mkIO [l] (Ok tt).

Definition run {A : Type} (r : result A) : io A := mkIO [] r.

(** ** primer *)

Record state : Type := mkState {
  primes : gmap Z Z;
  candidate : Z;
  index : Z
}.

Section Primer.
(** What the stack holds where [primes] is allocated. *)
Variable garbage : Z -> Z.

(** The declared length of [primes], the macro of the same name: a
    length, so not negative.  The guard of the loop compares it with the
    [uint32_t] [index]; for a length this is the comparison of the two
    integers. *)
Variable PRIMECOUNT : Z.

Definition read (m : gmap Z Z) (i : Z) : Z :=
  match m !! i with
  | Some v => v
  | None => garbage i
  end.

(** [searchto = trunc(sqrt(candidate))] *)
Definition searchto_of (candidate : Z) : result Z :=
  Double.to_uint32 (Double.trunc (Double.sqrt (Double.of_Z candidate))).

(** The [for] loop: the pair returned is [isprime] and the value of
    [count] when the loop is left, the last index that was read.  The
    remainder by a cell that holds zero is undefined. *)
Fixpoint scan (fuel : nat) (m : gmap Z Z) (candidate searchto count : Z)
  : result (bool * Z) :=
  match fuel with
  | O => OutOfFuel
  | S fuel' =>
      let p := read m count in
      if p <=? searchto then
        if p =? 0 then Undefined
        else
          let remainder := candidate mod p in
          if remainder =? 0 then Ok (false, count)
          else scan fuel' m candidate searchto (wrap32 (count + 1))
      else Ok (true, count)
  end.

(** One turn of the [while] loop. *)
Definition body (fuel : nat) (s : state) : result state :=
  let candidate := wrap32 (candidate s + 2) in
  searchto ← searchto_of candidate;
  '(isprime, _) ← scan fuel (primes s) candidate searchto 1;
  if (isprime : bool) then
    let index := wrap32 (index s + 1) in
    Ok (mkState (<[index := candidate]> (primes s)) candidate index)
  else
    Ok (mkState (primes s) candidate (index s)).

Fixpoint loop (fuel : nat) (s : state) : result state :=
  match fuel with
  | O => OutOfFuel
  | S fuel' =>
      if index s <? PRIMECOUNT then
        s' ← body fuel' s; loop fuel' s'
      else Ok s
  end.

(** The state when the [while] loop is entered. *)
Definition seeded : state :=
  let m := <[3 := 7]> (<[2 := 5]> (<[1 := 3]> (<[0 := 2]> ∅))) in
  mkState m (read m 3) 3.

Definition generate (fuel : nat) : result state := loop fuel seeded.

(** [elapsed = (time_us_64() - start) / 1000000.0] *)
Definition elapsed (start stop : Z) : spec_float :=
  Single.of_double (Double.div (Double.of_Z (wrap64 (stop - start)))
                               (Double.of_Z 1000000)).

(** The whole call: what it prints and the value it returns. *)
Definition primer (firstpass : bool) (fuel : nat) (start stop : Z)
  : io spec_float :=
  s ← run (generate fuel);
  (if firstpass then printf (LastPrime (candidate s)) else mret tt);;
  mret (elapsed start stop).

(** The states met at the head of the [while] loop, with the number of
    turns made so far. *)
Inductive reach : nat -> state -> Prop :=
| reach_seeded : reach O seeded
| reach_turn n s s' fuel :
    reach n s -> index s < PRIMECOUNT -> body fuel s = Ok s' ->
    reach (S n) s'.
End Primer.

(** ** getTotalHeap and getFreeHeap *)

(** [&__StackLimit - &__bss_end__]: the difference of the two addresses,
    an [int], converted to [uint32_t]; a difference that does not fit in
    an [int] is undefined. *)
Definition getTotalHeap (StackLimit bss_end : Z) : result Z :=
  let d := StackLimit - bss_end in
  if (- 2 ^ 31 <=? d) && (d <? 2 ^ 31) then Ok (wrap32 d) else Undefined.

(** [getTotalHeap() - m.uordblks], in [uint32_t]; [uordblks] is the
    number of bytes in use that [mallinfo] reports. *)
Definition getFreeHeap (StackLimit bss_end uordblks : Z) : result Z :=
  total ← getTotalHeap StackLimit bss_end;
  Ok (wrap32 (total - uordblks)).

(** ** main *)

Record main_state : Type := mkMain {
  passcount : Z;
  this_run : spec_float;
  total_runs : spec_float
}.

(** What one turn of the endless loop meets: the button, the free heap,
    the stack under [primes], and the two readings of the timer. *)
Record turn_input : Type := mkInput {
  button : bool;
  heap : Z;
  stack : Z -> Z;
  start_us : Z;
  stop_us : Z
}.

Section Main.
Variable PRIMECOUNT : Z.
Variable fuel : nat.

Definition main_turn (st : main_state) (i : turn_input) : io main_state :=
  if button i then
    passcount ← run (if passcount st <? INT_MAX then Ok (passcount st + 1)
                     else Undefined);
    if passcount =? 1 then
      printf (FreeHeap (heap i));;
      this_run ← primer (stack i) PRIMECOUNT true fuel (start_us i) (stop_us i);
      printf (Runtime this_run);;
      mret (mkMain passcount this_run this_run)
    else
      this_run ← primer (stack i) PRIMECOUNT false fuel (start_us i) (stop_us i);
      let total_runs := Single.add (total_runs st) this_run in
      printf (RuntimePassAverage this_run passcount
                (Single.div total_runs (Single.of_Z passcount)));;
      mret (mkMain passcount this_run total_runs)
  else mret st.

(** The endless loop, over the turns given. *)
Fixpoint main_loop (st : main_state) (inputs : list turn_input) : io main_state :=
  match inputs with
  | [] => mret st
  | i :: rest => st' ← main_turn st i; main_loop st' rest
  end.

(** [passcount = 0]; the two floats are not initialised. *)
Definition main_start (junk1 junk2 : spec_float) : main_state :=
  mkMain 0 junk1 junk2.
End Main.

(** A stack that holds zeros. *)
Definition zero_stack : Z -> Z := fun _ => 0.

(** ** Primality by computation *)

(** Whether one of [d], [d+1], ... ([fuel] of them) divides [n]. *)
Fixpoint has_divisor (fuel : nat) (d n : Z) : bool :=
  match fuel with
  | O => false
  | S fuel' => (n mod d =? 0) || has_divisor fuel' (d + 1) n
  end.

Definition is_primeb (n : Z) : bool :=
  (1 <? n) && negb (has_divisor (Z.to_nat (Z.sqrt n - 1)) 2 n).

(** ** Properties of the states of [primer] *)

(** The cells written are those from 0 to [index]: no gap below, nothing
    above. *)
Definition filled (s : state) : Prop :=
  forall i, is_Some (primes s !! i) <-> 0 <= i <= index s.

Definition increasing (s : state) : Prop :=
  forall i j p q,
    primes s !! i = Some p -> primes s !! j = Some q -> i < j -> p < q.

(** For every [k] up to [index], the cells 0 to [k] hold the [k+1]
    smallest primes in increasing order: cell [k] is larger than the cells
    before it, and the values of the cells 0 to [k] are exactly the primes
    up to the value of cell [k]. *)
Definition first_primes (s : state) : Prop :=
  forall k, 0 <= k <= index s ->
    exists q, primes s !! k = Some q /\
      (forall i p, 0 <= i < k -> primes s !! i = Some p -> p < q) /\
      (forall p, Z.prime p /\ p <= q <->
                 exists i, 0 <= i <= k /\ primes s !! i = Some p).

(** The state after [n] turns as long as no candidate has left the range
    of [uint32_t]. *)
Record exact (n : nat) (s : state) : Prop := mkExact {
  exact_candidate : candidate s = 7 + 2 * Z.of_nat n;
  exact_index : index s <= 3 + Z.of_nat n;
  exact_index_nine : (1 <= n)%nat -> index s <= 2 + Z.of_nat n;
  exact_two : primes s !! 0 = Some 2;
  exact_increasing : increasing s;
  exact_sound : forall i p, primes s !! i = Some p -> Z.prime p /\ p <= candidate s;
  exact_complete : forall p, Z.prime p -> p <= candidate s ->
                             exists i, primes s !! i = Some p
}.

(** What holds of every state at the head of the loop, wrap-around or
    not. *)
Record wellformed (C : Z) (s : state) : Prop := mkWellformed {
  wf_candidate : 0 <= candidate s < 2 ^ 32;
  wf_odd : exists h, candidate s = 2 * h + 1;
  wf_index : 3 <= index s <= C;
  wf_filled : filled s;
  wf_three : primes s !! 1 = Some 3;
  wf_nonzero : forall i p, primes s !! i = Some p -> p <> 0
}.

(** Either no candidate has wrapped yet, or 65537 has been stored: in
    both cases the scan meets a cell larger than [searchto]. *)
Definition regime (s : state) : Prop :=
  (exists n, exact n s /\ 7 + 2 * Z.of_nat n < 2 ^ 32) \/
  (exists j, 1 <= j <= index s /\ primes s !! j = Some 65537).

(** What a finished scan has seen: the cells from 1 up to [cnt], the first
    of them that divides the candidate or lies above [searchto]. *)
Definition scanned (m : gmap Z Z) (c st : Z) (b : bool) (cnt : Z) : Prop :=
  exists p, m !! cnt = Some p /\
    (forall i q, 1 <= i < cnt -> m !! i = Some q -> q <= st /\ c mod q <> 0) /\
    (if b then st < p else p <= st /\ c mod p = 0).

(** The state a turn leaves, given the verdict of the scan. *)
Definition next (isprime : bool) (s : state) : state :=
  let c := wrap32 (candidate s + 2) in
  if isprime then mkState (<[index s + 1 := c]> (primes s)) c (index s + 1)
  else mkState (primes s) c (index s).

(** The state after two turns: 9 was rejected, 11 was stored. *)
Definition eleven_stored : state := next true (next false (seeded zero_stack)).

(** ** Reading the reports of [main] *)

(** The lines that carry a pass count and an average. *)
Fixpoint averages (out : list line) : list (spec_float * Z * spec_float) :=
  match out with
  | [] => []
  | RuntimePassAverage t p a :: rest => (t, p, a) :: averages rest
  | _ :: rest => averages rest
  end.

(** The times measured by the turns in which the button was pressed. *)
Fixpoint trigger_times (inputs : list turn_input) : list spec_float :=
  match inputs with
  | [] => []
  | i :: rest =>
      if button i
      then elapsed (start_us i) (stop_us i) :: trigger_times rest
      else trigger_times rest
  end.

(** The sum of the times in single precision, added in order; [junk] is
    what the variable held before any time was added. *)
Definition float_sum (junk : spec_float) (es : list spec_float) : spec_float :=
  match es with
  | [] => junk
  | e :: rest => fold_left Single.add rest e
  end.

(** Two turns that differ at most in what the stack held. *)
Definition same_readings (i i' : turn_input) : Prop :=
  button i = button i' /\ heap i = heap i' /\
  start_us i = start_us i' /\ stop_us i = stop_us i'.

(** A line with a pass count and an average. *)
Definition is_average (l : line) : bool :=
  match l with
  | RuntimePassAverage _ _ _ => true
  | _ => false
  end.

(** A float that is a number, neither infinite nor below zero. *)
Definition finite_nonnegative (x : spec_float) : bool :=
  match x with
  | S754_zero _ => true
  | S754_finite s _ _ => negb s
  | _ => false
  end.

(** Whether the numbers of a line are numbers: a time that is finite and
    not below zero, an average that is not below zero. *)
Definition sound_numbers (l : line) : bool :=
  match l with
  | Runtime t => finite_nonnegative t
  | RuntimePassAverage t _ a => finite_nonnegative t && nonnegative a
  | _ => true
  end.

(** * Number theory *)

Section NumberTheory.

Lemma prime_divisor (n : Z) : 1 < n -> exists p, Z.prime p /\ (p | n).
Proof.
  induction n as [n IH] using (well_founded_induction (Z.lt_wf 0)).
  intros Hn.
  destruct (prime_dec n) as [Hp | Hnp].
  - exists n. split; [apply prime_alt; exact Hp | apply Z.divide_refl].
  - destruct (not_prime_divide n Hn Hnp) as (d & Hd & Hdiv).
    destruct (IH d) as (p & Hp & Hpd); [lia | lia |].
    exists p. split; [exact Hp | eapply Z.divide_trans; eassumption].
Qed.

Lemma prime_gt_1 (p : Z) : Z.prime p -> 1 < p.
Proof. intros [H _]. exact H. Qed.

Lemma small_factor (c d : Z) :
  1 < d < c -> (d | c) -> exists a, 1 < a /\ a * a <= c /\ (a | c).
Proof.
  intros Hd [e He].
  assert (1 < e) by nia.
  destruct (Z_le_gt_dec d e).
  - exists d. repeat split; [lia | nia | exists e; exact He].
  - exists e. repeat split; [lia | nia | exists d; lia].
Qed.

(** Trial division by the primes up to the square root decides
    primality. *)
Lemma trial_division (c : Z) :
  1 < c -> (forall q, Z.prime q -> q * q <= c -> ~ (q | c)) -> Z.prime c.
Proof.
  intros Hc Hno. split; [exact Hc |].
  intros d Hd Hdiv.
  destruct (small_factor c d Hd Hdiv) as (a & Ha & Haa & Hac).
  destruct (prime_divisor a Ha) as (q & Hq & Hqa).
  apply (Hno q Hq).
  - pose proof (prime_gt_1 q Hq).
    assert (q <= a) by (apply Z.divide_pos_le; [lia | exact Hqa]).
    nia.
  - eapply Z.divide_trans; eassumption.
Qed.

Lemma has_divisor_false (fuel : nat) (d n : Z) :
  0 < d -> has_divisor fuel d n = false ->
  forall k, d <= k < d + Z.of_nat fuel -> ~ (k | n).
Proof.
  revert d. induction fuel as [|fuel IH]; intros d Hd H k Hk; [lia |].
  simpl in H. apply orb_false_elim in H as [H1 H2].
  destruct (Z.eq_dec k d) as [-> | Hne].
  - intros Hdiv. apply Z.mod_divide in Hdiv; [|lia]. apply Z.eqb_neq in H1. lia.
  - apply (IH (d + 1)); [lia | exact H2 | lia].
Qed.

Lemma is_primeb_sound (n : Z) : is_primeb n = true -> Z.prime n.
Proof.
  unfold is_primeb. intros H. apply andb_prop in H as [H1 H2].
  apply Z.ltb_lt in H1. apply negb_true_iff in H2.
  apply trial_division; [exact H1 |].
  intros q Hq Hqq. pose proof (prime_gt_1 q Hq).
  apply (has_divisor_false _ 2 n ltac:(lia) H2).
  assert (q <= Z.sqrt n) by (apply Z.sqrt_le_square; lia).
  lia.
Qed.

Lemma prime_5 : Z.prime 5.
Proof. apply is_primeb_sound. reflexivity. Qed.

Lemma prime_7 : Z.prime 7.
Proof. apply is_primeb_sound. reflexivity. Qed.

Lemma prime_47 : Z.prime 47.
Proof. apply is_primeb_sound. reflexivity. Qed.

Lemma prime_2207 : Z.prime 2207.
Proof. apply is_primeb_sound. vm_compute. reflexivity. Qed.

Lemma prime_65537 : Z.prime 65537.
Proof. apply is_primeb_sound. vm_compute. reflexivity. Qed.

(** Below [2^32] there is always a prime between the square root of the
    next candidate and the current one; four primes are enough to see
    it. *)
Lemma prime_above_sqrt (c : Z) :
  7 <= c < 2 ^ 32 ->
  exists p, Z.prime p /\ p <= c /\ Z.sqrt (c + 2) < p.
Proof.
  intros Hc.
  assert (Hlt : forall p, 0 < p -> c + 2 < p * p -> Z.sqrt (c + 2) < p).
  { intros p Hp H. apply Z.sqrt_lt_square; lia. }
  assert (Hcase : forall p, Z.prime p -> 0 < p <= c -> c + 2 < p * p ->
            exists p, Z.prime p /\ p <= c /\ Z.sqrt (c + 2) < p).
  { intros p Hp Hpc Hpp. exists p. split; [exact Hp |].
    split; [lia | apply Hlt; lia]. }
  destruct (Z_lt_le_dec c 47); [apply (Hcase 7 prime_7); lia |].
  destruct (Z_lt_le_dec c 2207); [apply (Hcase 47 prime_47); lia |].
  destruct (Z_lt_le_dec c 65537); [apply (Hcase 2207 prime_2207); lia |].
  apply (Hcase 65537 prime_65537); lia.
Qed.

End NumberTheory.

(** * Floating point *)

Section FloatingPoint.

Lemma digits2_size (p : positive) : digits2_pos p = Pos.size p.
Proof. induction p; simpl; congruence. Qed.

Lemma digits2_log2 (p : positive) : Zpos (digits2_pos p) = Z.log2 (Zpos p) + 1.
Proof.
  rewrite digits2_size. destruct p; simpl; lia.
Qed.

Lemma Zdigits2_bounds (z k : Z) : 0 < k -> 2 ^ (k - 1) <= z < 2 ^ k -> Zdigits2 z = k.
Proof.
  intros Hk Hz. assert (0 < z) by (pose proof (Z.pow_pos_nonneg 2 (k - 1)); lia).
  destruct z as [|p|p]; try lia. simpl. rewrite digits2_log2.
  rewrite (Z.log2_unique (Zpos p) (k - 1)); [lia | lia |].
  replace (Z.succ (k - 1)) with k by lia. exact Hz.
Qed.

Lemma Zdigits2_spec (z : Z) : 0 < z -> 2 ^ (Zdigits2 z - 1) <= z < 2 ^ Zdigits2 z.
Proof.
  intros Hz. destruct z as [|p|p]; try lia. simpl. rewrite digits2_log2.
  pose proof (Z.log2_spec (Zpos p) ltac:(lia)) as H.
  replace (Z.log2 (Z.pos p) + 1 - 1) with (Z.log2 (Z.pos p)) by lia.
  replace (Z.log2 (Z.pos p) + 1) with (Z.succ (Z.log2 (Z.pos p))) by lia. exact H.
Qed.

Lemma loc_of_shr_record_of_loc (m : Z) (l : location) :
  loc_of_shr_record (shr_record_of_loc m l) = l.
Proof. destruct l as [|[]]; reflexivity. Qed.

Lemma shr_m_of_loc (m : Z) (l : location) : shr_m (shr_record_of_loc m l) = m.
Proof. destruct l as [|[]]; reflexivity. Qed.

Lemma shr_fexp_53 (m e : Z) (l : location) :
  Zdigits2 m = 53 -> -1074 <= e ->
  shr_fexp 53 1024 m e l = (shr_record_of_loc m l, e).
Proof.
  intros Hd He. unfold shr_fexp, fexp, emin. rewrite Hd.
  replace (Z.max (53 + e - 53) (3 - 1024 - 53) - e) with 0 by lia. reflexivity.
Qed.

Lemma round_nearest_even_range (m : Z) (l : location) :
  round_nearest_even m l = m \/ round_nearest_even m l = m + 1.
Proof. destruct l as [|[]]; simpl; auto. destruct (Z.even m); auto. Qed.

Lemma binary_round_aux_53 (q e : Z) (l : location) :
  2 ^ 52 <= q < 2 ^ 53 -> -1074 <= e <= 970 ->
  binary_round_aux 53 1024 false q e l =
    if round_nearest_even q l <? 2 ^ 53
    then S754_finite false (Z.to_pos (round_nearest_even q l)) e
    else S754_finite false (Z.to_pos (2 ^ 52)) (e + 1).
Proof.
  intros Hq He. unfold binary_round_aux.
  rewrite shr_fexp_53 by (try apply Zdigits2_bounds; lia).
  rewrite loc_of_shr_record_of_loc, shr_m_of_loc.
  destruct (Z.ltb_spec (round_nearest_even q l) (2 ^ 53)) as [Hlt | Hge].
  - assert (Hr : 2 ^ 52 <= round_nearest_even q l < 2 ^ 53)
      by (destruct (round_nearest_even_range q l); lia).
    rewrite shr_fexp_53 by (try apply Zdigits2_bounds; lia).
    simpl shr_m. 
    destruct (round_nearest_even q l) as [|m|m]; try lia.
    destruct (Z.leb_spec e (1024 - 53)); [reflexivity | lia].
  - assert (Hr : round_nearest_even q l = 2 ^ 53)
      by (destruct (round_nearest_even_range q l); lia).
    rewrite Hr. 
    replace (shr_fexp 53 1024 (2 ^ 53) e loc_Exact)
      with ({| shr_m := 2 ^ 52; shr_r := false; shr_s := false |}, e + 1).
    + simpl shr_m. change (2 ^ 52) with (Zpos (Z.to_pos (2 ^ 52))).
      cbv beta iota.
      destruct (Z.leb_spec (e + 1) (1024 - 53)); [reflexivity | lia].
    + unfold shr_fexp, fexp, emin.
      replace (Zdigits2 (2 ^ 53)) with 54 by reflexivity.
      replace (Z.max (54 + e - 53) (3 - 1024 - 53) - e) with 1 by lia.
      reflexivity.
Qed.

Lemma iter_xO (r k : positive) : Zpos (Pos.iter xO r k) = Zpos r * 2 ^ Zpos k.
Proof.
  induction k as [|k IH] using Pos.peano_ind.
  - simpl. lia.
  - rewrite Pos.iter_succ, Pos2Z.inj_succ, Z.pow_succ_r by lia.
    rewrite Pos2Z.inj_xO, IH. lia.
Qed.

Lemma pow_scale (a b c k : Z) :
  0 <= a -> 0 <= b -> 0 <= k -> 2 ^ a <= c < 2 ^ b ->
  2 ^ (a + k) <= c * 2 ^ k < 2 ^ (b + k).
Proof.
  intros Ha Hb Hk Hc. rewrite !Z.pow_add_r by lia.
  assert (0 < 2 ^ k) by (apply Z.pow_pos_nonneg; lia). nia.
Qed.

(** A positive integer below [2^53] is converted exactly. *)
Lemma of_Z_small (z : Z) :
  0 < z < 2 ^ 53 ->
  Double.of_Z z =
    S754_finite false (Z.to_pos (z * 2 ^ (53 - Zdigits2 z))) (Zdigits2 z - 53).
Proof.
  intros Hz. pose proof (Zdigits2_spec z ltac:(lia)) as Hd.
  assert (Hd53 : 1 <= Zdigits2 z <= 53).
  { destruct z as [|r|r]; try lia. simpl in *. split; [lia |].
    destruct (Z_le_gt_dec (Zpos (digits2_pos r)) 53); [assumption |].
    assert (2 ^ 53 <= 2 ^ (Zpos (digits2_pos r) - 1)) by (apply Z.pow_le_mono_r; lia).
    lia. }
  assert (Hm : 2 ^ 52 <= z * 2 ^ (53 - Zdigits2 z) < 2 ^ 53).
  { pose proof (pow_scale (Zdigits2 z - 1) (Zdigits2 z) z (53 - Zdigits2 z)
                  ltac:(lia) ltac:(lia) ltac:(lia) Hd) as H.
    replace (Zdigits2 z - 1 + (53 - Zdigits2 z)) with 52 in H by lia.
    replace (Zdigits2 z + (53 - Zdigits2 z)) with 53 in H by lia. exact H. }
  destruct z as [|r|r]; try lia.
  unfold Double.of_Z, binary_normalize, binary_round.
  change (Zdigits2 (Zpos r)) with (Zpos (digits2_pos r)) in *.
  set (d := Zpos (digits2_pos r)) in *.
  unfold Double.prec, Double.emax.
  replace (fexp 53 1024 (d + 0)) with (d - 53) by (unfold fexp, emin; lia).
  assert (Hal : exists mz, shl_align r 0 (d - 53) = (mz, d - 53) /\
                           Zpos mz = Zpos r * 2 ^ (53 - d)).
  { unfold shl_align. destruct (d - 53 - 0) as [|k|k] eqn:E; try lia.
    - exists r. replace (d - 53) with 0 by lia. replace (53 - d) with 0 by lia.
      split; [reflexivity | lia].
    - exists (Pos.iter xO r k). split; [reflexivity |].
      rewrite iter_xO. replace (53 - d) with (Zpos k) by lia. reflexivity. }
  destruct Hal as (mz & -> & Hmz).
  rewrite binary_round_aux_53 by lia.
  simpl round_nearest_even. rewrite <- Hmz in *.
  destruct (Z.ltb_spec (Zpos mz) (2 ^ 53)); [reflexivity | lia].
Qed.

Lemma sqrt_core (m e e' s : Z) :
  Zdigits2 m = 53 ->
  e' = Z.min (fexp 53 1024 (Z.div2 (53 + e + 1))) (Z.div2 e) ->
  s = e - 2 * e' -> 0 < s ->
  exists l, SFsqrt_core_binary 53 1024 m e = (Z.sqrt (m * 2 ^ s), e', l).
Proof.
  intros Hd He' Hs Hpos. unfold SFsqrt_core_binary. rewrite Hd.
  cbv zeta. rewrite <- He', <- Hs.
  destruct s as [|sp|sp]; try lia.
  rewrite Z.shiftl_mul_pow2 by lia.
  pose proof (Z.sqrtrem_sqrt (m * 2 ^ Zpos sp)) as Hq.
  destruct (Z.sqrtrem (m * 2 ^ Zpos sp)) as [q r]. simpl in Hq. subst q.
  eexists. reflexivity.
Qed.

Lemma sqrt_scaled (c P : Z) :
  0 <= c -> 0 < P -> Z.sqrt (c * (P * P)) / P = Z.sqrt c.
Proof.
  intros Hc HP.
  pose proof (Z.sqrt_spec c Hc) as Hr. pose proof (Z.sqrt_nonneg c) as Hr0.
  pose proof (Z.sqrt_spec (c * (P * P)) ltac:(nia)) as Hq.
  pose proof (Z.sqrt_nonneg (c * (P * P))) as Hq0.
  cbv zeta in Hr, Hq.
  set (r := Z.sqrt c) in *. set (q := Z.sqrt (c * (P * P))) in *.
  symmetry. apply (Z.div_unique_pos q P r (q - r * P)); [|lia].
  split.
  - assert (r * P < q + 1); [|lia].
    apply Z.square_lt_simpl_nonneg; [lia |]. unfold Z.square. nia.
  - assert (q < (r + 1) * P); [|lia].
    apply Z.square_lt_simpl_nonneg; [nia |]. unfold Z.square. nia.
Qed.

Lemma sqrt_scaled_succ (c P : Z) :
  0 <= c < 2 ^ 32 -> 2 ^ 17 <= P ->
  (Z.sqrt (c * (P * P)) + 1) / P = Z.sqrt c.
Proof.
  intros Hc HP.
  pose proof (Z.sqrt_spec c ltac:(lia)) as Hr. pose proof (Z.sqrt_nonneg c) as Hr0.
  pose proof (Z.sqrt_spec (c * (P * P)) ltac:(nia)) as Hq.
  pose proof (Z.sqrt_nonneg (c * (P * P))) as Hq0.
  assert (Hr16 : Z.sqrt c < 2 ^ 16) by (apply Z.sqrt_lt_square; lia).
  cbv zeta in Hr, Hq.
  set (r := Z.sqrt c) in *. set (q := Z.sqrt (c * (P * P))) in *.
  symmetry. apply (Z.div_unique_pos (q + 1) P r (q + 1 - r * P)); [|lia].
  assert (H1 : r * P < q + 1).
  { apply Z.square_lt_simpl_nonneg; [lia |]. unfold Z.square. nia. }
  assert (H2 : q < (r + 1) * P).
  { apply Z.square_lt_simpl_nonneg; [nia |]. unfold Z.square. nia. }
  split; [lia |].
  assert (q + 1 <> (r + 1) * P); [|lia].
  intros Heq.
  assert (Hq' : q = (r + 1) * P - 1) by lia.
  assert (Hc' : c + 1 <= (r + 1) * (r + 1)) by lia.
  assert (q * q <= ((r + 1) * (r + 1) - 1) * (P * P)) by nia.
  rewrite Hq' in H. nia.
Qed.

(** The integer part of the double nearest to a small integer is that
    integer. *)
Lemma to_uint32_of_Z (r : Z) :
  0 <= r < 2 ^ 32 -> Double.to_uint32 (Double.of_Z r) = Ok r.
Proof.
  intros Hr. destruct (Z.eq_dec r 0) as [-> | Hne]; [reflexivity |].
  rewrite of_Z_small by lia.
  pose proof (Zdigits2_spec r ltac:(lia)) as Hd.
  assert (Hd32 : 1 <= Zdigits2 r <= 32).
  { destruct r as [|p|p]; try lia. simpl in *. split; [lia |].
    destruct (Z_le_gt_dec (Zpos (digits2_pos p)) 32); [assumption |].
    assert (2 ^ 32 <= 2 ^ (Zpos (digits2_pos p) - 1)) by (apply Z.pow_le_mono_r; lia).
    lia. }
  unfold Double.to_uint32, Double.integer_part.
  assert (HP : 0 < 2 ^ (53 - Zdigits2 r)) by (apply Z.pow_pos_nonneg; lia).
  destruct (Zdigits2 r - 53) as [|k|k] eqn:E; try lia.
  replace (Zpos k) with (53 - Zdigits2 r) by lia.
  rewrite Z2Pos.id by nia. simpl cond_Zopp.
  rewrite Z.div_mul by lia.
  destruct (Z.leb_spec 0 r); [|lia]. destruct (Z.ltb_spec r (2 ^ 32)); [reflexivity | lia].
Qed.

(** [trunc(sqrt(candidate))] is the integer square root, for every value of
    a [uint32_t]. *)
Lemma searchto_of_sqrt (c : Z) : 0 <= c < 2 ^ 32 -> searchto_of c = Ok (Z.sqrt c).
Proof.
  intros Hc. destruct (Z.eq_dec c 0) as [-> | Hne]; [reflexivity |].
  unfold searchto_of. rewrite of_Z_small by lia.
  pose proof (Zdigits2_spec c ltac:(lia)) as Hd.
  set (d := Zdigits2 c) in *.
  assert (Hd32 : 1 <= d <= 32).
  { split.
    - destruct c; try lia; unfold d; simpl; lia.
    - destruct (Z_le_gt_dec d 32); [assumption |].
      assert (2 ^ 32 <= 2 ^ (d - 1)) by (apply Z.pow_le_mono_r; lia). lia. }
  assert (Hm : 2 ^ 52 <= c * 2 ^ (53 - d) < 2 ^ 53).
  { pose proof (pow_scale (d - 1) d c (53 - d) ltac:(lia) ltac:(lia) ltac:(lia) Hd) as H.
    replace (d - 1 + (53 - d)) with 52 in H by lia.
    replace (d + (53 - d)) with 53 in H by lia. exact H. }
  set (w := 53 - (d + 1) / 2).
  assert (Hw : 37 <= w <= 52) by (unfold w; Z.div_mod_to_equations; lia).
  set (s := d + 53 - 2 * ((d + 1) / 2)).
  assert (Hs : s = 52 \/ s = 53) by (unfold s; Z.div_mod_to_equations; lia).
  destruct (sqrt_core (c * 2 ^ (53 - d)) (d - 53) (- w) s) as [l Hcore].
  { apply Zdigits2_bounds; lia. }
  { unfold fexp, emin. rewrite !Z.div2_div. unfold w. Z.div_mod_to_equations. lia. }
  { unfold s, w. lia. }
  { lia. }
  unfold Double.sqrt, SFsqrt.
  rewrite Z2Pos.id by lia. unfold Double.prec, Double.emax. rewrite Hcore.
  set (P := 2 ^ w).
  assert (HP : 2 ^ 37 <= P) by (apply Z.pow_le_mono_r; lia).
  assert (HPP : c * 2 ^ (53 - d) * 2 ^ s = c * (P * P)).
  { unfold P. rewrite <- Z.mul_assoc, <- !Z.pow_add_r by lia.
    f_equal. f_equal. unfold s, w. lia. }
  rewrite HPP.
  set (q := Z.sqrt (c * (P * P))).
  assert (Hq : 2 ^ 52 <= q < 2 ^ 53).
  { unfold q. rewrite <- HPP. split.
    - apply Z.sqrt_le_square; [nia | lia |]. destruct Hs as [-> | ->]; lia.
    - apply Z.sqrt_lt_square; [nia | lia |]. destruct Hs as [-> | ->]; lia. }
  rewrite binary_round_aux_53 by lia.
  assert (Htrunc : forall m e, e < 0 -> 0 < m ->
            Double.trunc (S754_finite false (Z.to_pos m) e) = Double.of_Z (m / 2 ^ (- e))).
  { intros m e He Hm0. destruct e as [|k|k]; try lia.
    unfold Double.trunc. rewrite Z2Pos.id by lia. reflexivity. }
  destruct (Z.ltb_spec (round_nearest_even q l) (2 ^ 53)) as [Hlt | Hge].
  - rewrite Htrunc by (destruct (round_nearest_even_range q l); lia).
    replace (- - w) with w by lia. fold P.
    replace (round_nearest_even q l / P) with (Z.sqrt c).
    + apply to_uint32_of_Z. pose proof (Z.sqrt_nonneg c).
      assert (Z.sqrt c < 2 ^ 16) by (apply Z.sqrt_lt_square; lia). lia.
    + destruct (round_nearest_even_range q l) as [-> | ->]; symmetry;
        [apply sqrt_scaled | apply sqrt_scaled_succ]; lia.
  - assert (Hr : q + 1 = 2 ^ 53)
      by (destruct (round_nearest_even_range q l); lia).
    rewrite Htrunc by lia.
    replace (2 ^ 52 / 2 ^ (- (- w + 1))) with (Z.sqrt c).
    + apply to_uint32_of_Z. pose proof (Z.sqrt_nonneg c).
      assert (Z.sqrt c < 2 ^ 16) by (apply Z.sqrt_lt_square; lia). lia.
    + rewrite <- (sqrt_scaled_succ c P) by lia. fold q. rewrite Hr.
      replace (- (- w + 1)) with (w - 1) by lia.
      assert (HP1 : P = 2 ^ (w - 1) * 2).
      { unfold P. replace w with (Z.succ (w - 1)) at 1 by lia.
        rewrite Z.pow_succ_r by lia. lia. }
      rewrite HP1. change (2 ^ 53) with (2 ^ 52 * 2).
      rewrite Z.div_mul_cancel_r; [reflexivity | | lia].
      assert (0 < 2 ^ (w - 1)) by (apply Z.pow_pos_nonneg; lia). lia.
Qed.

Lemma shr_1_nonneg (mrs : shr_record) : 0 <= shr_m mrs -> 0 <= shr_m (shr_1 mrs).
Proof.
  destruct mrs as [m r s]. simpl. intros Hm.
  destruct m as [|[p|p|]|p]; simpl; lia.
Qed.

Lemma iter_shr_1_nonneg (n : positive) :
  forall mrs, 0 <= shr_m mrs -> 0 <= shr_m (SpecFloat.iter_pos shr_1 n mrs).
Proof.
  induction n as [n IH|n IH|]; intros mrs Hm; simpl.
  - apply IH, IH, shr_1_nonneg, Hm.
  - apply IH, IH, Hm.
  - apply shr_1_nonneg, Hm.
Qed.

Lemma shr_nonneg (mrs : shr_record) (e n : Z) :
  0 <= shr_m mrs -> 0 <= shr_m (fst (shr mrs e n)).
Proof.
  intros Hm. unfold shr. destruct n; simpl; try exact Hm.
  apply iter_shr_1_nonneg, Hm.
Qed.

Lemma round_nearest_even_nonneg (m : Z) (l : location) :
  0 <= m -> 0 <= round_nearest_even m l.
Proof. pose proof (round_nearest_even_range m l). lia. Qed.

(** Rounding a mantissa that is not negative gives a number that is not
    negative: zero, a finite number or infinity with a clear sign bit. *)
Lemma binary_round_aux_nonneg (prec emax m e : Z) (l : location) :
  0 <= m -> nonnegative (binary_round_aux prec emax false m e l) = true.
Proof.
  intros Hm. unfold binary_round_aux, shr_fexp.
  pose proof (shr_nonneg (shr_record_of_loc m l) e
                (fexp prec emax (Zdigits2 m + e) - e)) as H1.
  rewrite shr_m_of_loc in H1. specialize (H1 Hm).
  destruct (shr (shr_record_of_loc m l) e (fexp prec emax (Zdigits2 m + e) - e))
    as [mrs' e'].
  simpl in H1.
  pose proof (round_nearest_even_nonneg (shr_m mrs') (loc_of_shr_record mrs') H1) as H2.
  set (m2 := round_nearest_even (shr_m mrs') (loc_of_shr_record mrs')) in *.
  pose proof (shr_nonneg (shr_record_of_loc m2 loc_Exact) e'
                (fexp prec emax (Zdigits2 m2 + e') - e')) as H3.
  simpl shr_m in H3 at 1. specialize (H3 H2).
  destruct (shr (shr_record_of_loc m2 loc_Exact) e' (fexp prec emax (Zdigits2 m2 + e') - e'))
    as [mrs'' e''].
  simpl in H3.
  destruct (shr_m mrs'') as [|p|p]; try lia; [reflexivity |].
  destruct (e'' <=? emax - prec); reflexivity.
Qed.

Lemma binary_normalize_nonneg (prec emax z e : Z) :
  0 <= z -> nonnegative (binary_normalize prec emax z e false) = true.
Proof.
  intros Hz. destruct z as [|p|p]; try lia; [reflexivity |].
  unfold binary_normalize, binary_round.
  destruct (shl_align p e (fexp prec emax (Zpos (digits2_pos p) + e))) as [mz ez].
  apply binary_round_aux_nonneg. lia.
Qed.

Lemma div_nonneg (x : spec_float) (my : positive) (ey : Z) :
  nonnegative x = true ->
  nonnegative (Double.div x (S754_finite false my ey)) = true.
Proof.
  intros Hx. unfold Double.div, SFdiv.
  destruct x as [s|s| |s mx ex]; simpl in Hx; try discriminate.
  - reflexivity.
  - destruct s; [discriminate | reflexivity].
  - destruct s; [discriminate |].
    unfold SFdiv_core_binary.
    set (m' := match _ with Z0 => _ | Zpos _ => _ | Zneg _ => _ end).
    assert (Hm' : 0 <= m').
    { unfold m'. destruct (_ - _) as [|k|k]; try lia.
      rewrite Z.shiftl_mul_pow2 by lia.
      assert (0 < 2 ^ Zpos k) by (apply Z.pow_pos_nonneg; lia). lia. }
    pose proof (Z_div_mod m' (Zpos my) ltac:(lia)) as Hdm.
    destruct (Z.div_eucl m' (Zpos my)) as [q r].
    apply binary_round_aux_nonneg. simpl. nia.
Qed.

Lemma of_double_nonneg (x : spec_float) :
  nonnegative x = true -> nonnegative (Single.of_double x) = true.
Proof.
  intros Hx. destruct x as [s|s| |s m e]; simpl in *; try assumption.
  destruct s; [discriminate |].
  unfold binary_round.
  destruct (shl_align m e _) as [mz ez].
  apply binary_round_aux_nonneg. lia.
Qed.

(** The time returned by [primer] is never negative, whatever the two
    readings of the timer. *)
Lemma elapsed_nonnegative (start stop : Z) : nonnegative (elapsed start stop) = true.
Proof.
  unfold elapsed. apply of_double_nonneg.
  rewrite (of_Z_small 1000000) by lia.
  apply div_nonneg. unfold Double.of_Z.
  apply binary_normalize_nonneg. unfold wrap64.
  apply Z.mod_pos_bound. lia.
Qed.

Lemma shr_1_half (mrs : shr_record) :
  0 <= shr_m mrs -> shr_m (shr_1 mrs) = shr_m mrs / 2.
Proof.
  destruct mrs as [m r s]. cbn [shr_m]. intros Hm.
  destruct m as [|[p|p|]|p]; cbn [shr_1 shr_m]; try lia; try reflexivity.
  - rewrite Pos2Z.inj_xI. Z.div_mod_to_equations. lia.
  - rewrite Pos2Z.inj_xO. Z.div_mod_to_equations. lia.
Qed.

Lemma iter_shr_1_div (n : positive) :
  forall mrs, 0 <= shr_m mrs ->
    shr_m (SpecFloat.iter_pos shr_1 n mrs) = shr_m mrs / 2 ^ Zpos n.
Proof.
  induction n as [n IH|n IH|]; intros mrs Hm; simpl SpecFloat.iter_pos.
  - rewrite IH by (apply iter_shr_1_nonneg, shr_1_nonneg, Hm).
    rewrite IH by (apply shr_1_nonneg, Hm).
    rewrite shr_1_half by exact Hm.
    assert (0 < 2 ^ Zpos n) by (apply Z.pow_pos_nonneg; lia).
    rewrite !Z.div_div by lia. f_equal.
    replace (Zpos n~1) with (1 + Zpos n + Zpos n) by lia.
    rewrite !Z.pow_add_r by lia. lia.
  - rewrite IH by (apply iter_shr_1_nonneg, Hm).
    rewrite IH by exact Hm.
    assert (0 < 2 ^ Zpos n) by (apply Z.pow_pos_nonneg; lia).
    rewrite Z.div_div by lia. f_equal.
    replace (Zpos n~0) with (Zpos n + Zpos n) by lia.
    rewrite Z.pow_add_r by lia. reflexivity.
  - rewrite shr_1_half by exact Hm. reflexivity.
Qed.

(** Shifting a positive mantissa down to the precision leaves a positive
    mantissa. *)
Lemma shr_fexp_positive (prec emax m e : Z) (l : location) :
  1 <= prec -> 0 < m -> emin prec emax <= e ->
  0 < shr_m (fst (shr_fexp prec emax m e l)) /\
  emin prec emax <= snd (shr_fexp prec emax m e l).
Proof.
  intros Hprec Hm He. unfold shr_fexp, shr.
  pose proof (Zdigits2_spec m Hm) as Hd.
  assert (Hd1 : 1 <= Zdigits2 m) by (destruct m; try lia; simpl; lia).
  destruct (fexp prec emax (Zdigits2 m + e) - e) as [|k|k] eqn:E; simpl;
    rewrite ?shr_m_of_loc; try (split; lia).
  assert (Hk : Zpos k <= Zdigits2 m - 1) by (unfold fexp in E; lia).
  rewrite iter_shr_1_div by (rewrite shr_m_of_loc; lia).
  rewrite shr_m_of_loc. split; [|lia].
  apply Z.div_str_pos. split; [apply Z.pow_pos_nonneg; lia |].
  assert (2 ^ Zpos k <= 2 ^ (Zdigits2 m - 1)) by (apply Z.pow_le_mono_r; lia).
  lia.
Qed.

Lemma binary_round_aux_positive (prec emax m e : Z) (l : location) :
  1 <= prec -> 0 < m -> emin prec emax <= e ->
  positive_float (binary_round_aux prec emax false m e l) = true.
Proof.
  intros Hprec Hm He. unfold binary_round_aux.
  destruct (shr_fexp_positive prec emax m e l Hprec Hm He) as [H1 H1e].
  destruct (shr_fexp prec emax m e l) as [mrs' e']. simpl in H1, H1e.
  assert (H2 : 0 < round_nearest_even (shr_m mrs') (loc_of_shr_record mrs'))
    by (destruct (round_nearest_even_range (shr_m mrs') (loc_of_shr_record mrs')); lia).
  destruct (shr_fexp_positive prec emax _ e' loc_Exact Hprec H2 H1e) as [H3 _].
  destruct (shr_fexp prec emax _ e' loc_Exact) as [mrs'' e'']. simpl in H3.
  destruct (shr_m mrs'') as [|p|p]; try lia.
  destruct (e'' <=? emax - prec); reflexivity.
Qed.

(** The conversion of a positive [int] to [float] is a positive number,
    never zero. *)
Lemma single_of_Z_positive (p : Z) : 0 < p -> positive_float (Single.of_Z p) = true.
Proof.
  intros Hp. destruct p as [|r|r]; try lia.
  unfold Single.of_Z, binary_normalize, binary_round, shl_align.
  set (f := fexp Single.prec Single.emax (Z.pos (digits2_pos r) + 0)).
  assert (Hf : emin Single.prec Single.emax <= f) by (unfold f, fexp; lia).
  destruct (f - 0) as [|k|k] eqn:E;
    apply binary_round_aux_positive; unfold Single.prec, Single.emax in *;
    try lia; unfold emin; lia.
Qed.

End FloatingPoint.

(** * The scan *)

Section Scan.

Lemma wrap32_small (z : Z) : 0 <= z < 2 ^ 32 -> wrap32 z = z.
Proof. intros H. unfold wrap32. apply Z.mod_small. exact H. Qed.

Lemma wrap32_range (z : Z) : 0 <= wrap32 z < 2 ^ 32.
Proof. unfold wrap32. apply Z.mod_pos_bound. lia. Qed.

Lemma read_written (g : Z -> Z) (m : gmap Z Z) (i p : Z) :
  m !! i = Some p -> read g m i = p.
Proof. intros H. unfold read. rewrite H. reflexivity. Qed.

(** More fuel does not change a result. *)
Lemma scan_fuel_mono (g : Z -> Z) (m : gmap Z Z) (c st : Z) (f f' : nat) :
  forall k r, scan g f m c st k = Ok r -> (f <= f')%nat ->
              scan g f' m c st k = Ok r.
Proof.
  revert f'. induction f as [|f IH]; intros f' k r H Hle; [discriminate |].
  destruct f' as [|f']; [lia |].
  simpl in *. destruct (read g m k <=? st); [|exact H].
  destruct (read g m k =? 0); [discriminate |].
  destruct (c mod read g m k =? 0); [exact H |].
  apply IH; [exact H | lia].
Qed.

(** When a written cell [j] above [searchto] lies ahead and the cells up
    to it are written and not zero, the scan ends at or before [j],
    whatever the stack held, and its result is described by the cells it
    passed. *)
Lemma scan_stops (m : gmap Z Z) (c st j pj : Z) :
  m !! j = Some pj -> st < pj -> j < 2 ^ 32 - 1 ->
  forall (fuel : nat) (k : Z),
    0 <= k <= j ->
    (forall i, k <= i <= j -> exists p, m !! i = Some p /\ p <> 0) ->
    (Z.to_nat (j - k) < fuel)%nat ->
    exists b cnt p,
      (forall g, scan g fuel m c st k = Ok (b, cnt)) /\
      k <= cnt <= j /\ m !! cnt = Some p /\
      (forall i q, k <= i < cnt -> m !! i = Some q -> q <= st /\ c mod q <> 0) /\
      (if b then st < p else p <= st /\ c mod p = 0).
Proof.
  intros Hj Hst Hjmax fuel.
  induction fuel as [|fuel IH]; intros k Hk Hcells Hfuel; [lia |].
  destruct (Hcells k ltac:(lia)) as (p & Hp & Hp0).
  destruct (Z.leb_spec p st) as [Hle | Hgt].
  - destruct (Z.eqb_spec (c mod p) 0) as [Hdiv | Hndiv].
    + exists false, k, p. split.
      * intros g. simpl. rewrite (read_written g m k p Hp).
        destruct (Z.leb_spec p st); [|lia].
        destruct (Z.eqb_spec p 0); [lia |].
        destruct (Z.eqb_spec (c mod p) 0); [reflexivity | lia].
      * split; [lia |]. split; [exact Hp |]. split; [intros; lia |].
        split; [exact Hle | exact Hdiv].
    + assert (k < j).
      { destruct (Z.eq_dec k j) as [-> |]; [|lia]. rewrite Hj in Hp. inversion Hp. lia. }
      destruct (IH (k + 1)) as (b & cnt & q & Hscan & Hcnt & Hq & Hbefore & Hend).
      * lia.
      * intros i Hi. apply Hcells. lia.
      * lia.
      * exists b, cnt, q. split.
        -- intros g. simpl. rewrite (read_written g m k p Hp).
           destruct (Z.leb_spec p st); [|lia].
           destruct (Z.eqb_spec p 0); [lia |].
           destruct (Z.eqb_spec (c mod p) 0); [lia |].
           rewrite wrap32_small by lia. apply Hscan.
        -- split; [lia |]. split; [exact Hq |]. split; [|exact Hend].
           intros i q' Hi Hq'. destruct (Z.eq_dec i k) as [-> |].
           ++ rewrite Hp in Hq'. inversion Hq'. subst q'. split; assumption.
           ++ apply (Hbefore i q'); [lia | exact Hq'].
  - exists true, k, p. split.
    + intros g. simpl. rewrite (read_written g m k p Hp).
      destruct (Z.leb_spec p st); [lia | reflexivity].
    + split; [lia |]. split; [exact Hp |]. split; [intros; lia | exact Hgt].
Qed.

End Scan.

(** * The invariants of the loop *)

Section Invariants.

Lemma sqrt_wrap32 (z : Z) : Z.sqrt (wrap32 z) < 65537.
Proof.
  pose proof (wrap32_range z). apply Z.sqrt_lt_square; lia.
Qed.

Lemma seeded_cells (g : Z -> Z) (i : Z) :
  primes (seeded g) !! i =
    if decide (i = 3) then Some 7
    else if decide (i = 2) then Some 5
    else if decide (i = 1) then Some 3
    else if decide (i = 0) then Some 2 else None.
Proof.
  unfold seeded. simpl.
  repeat (rewrite lookup_insert; case_decide; [subst; repeat case_decide; try lia; reflexivity |]).
  repeat case_decide; try lia. apply lookup_empty.
Qed.

Lemma seeded_candidate (g : Z -> Z) : candidate (seeded g) = 7.
Proof. reflexivity. Qed.

Lemma seeded_index (g : Z -> Z) : index (seeded g) = 3.
Proof. reflexivity. Qed.

Lemma prime_le_7 (p : Z) : Z.prime p -> p <= 7 -> p = 2 \/ p = 3 \/ p = 5 \/ p = 7.
Proof.
  intros Hp Hle. pose proof (prime_gt_1 p Hp).
  assert (Hc : p = 2 \/ p = 3 \/ p = 4 \/ p = 5 \/ p = 6 \/ p = 7) by lia.
  destruct Hc as [-> | [-> | [-> | [-> | [-> | ->]]]]]; auto.
  - exfalso. destruct Hp as [_ Hp].
    apply (Hp 2); [lia | exists 2; reflexivity].
  - exfalso. destruct Hp as [_ Hp].
    apply (Hp 2); [lia | exists 3; reflexivity].
Qed.

Lemma seeded_exact (g : Z -> Z) : exact 0 (seeded g).
Proof.
  split.
  - reflexivity.
  - rewrite seeded_index. lia.
  - lia.
  - rewrite seeded_cells. reflexivity.
  - intros i j p q Hi Hj Hij. rewrite seeded_cells in Hi, Hj.
    repeat case_decide; simplify_eq; lia.
  - intros i p Hi. rewrite seeded_cells in Hi. rewrite seeded_candidate.
    repeat case_decide; simplify_eq;
      (split; [first [apply Z.prime_2 | apply Z.prime_3 | apply prime_5 | apply prime_7] | lia]).
  - intros p Hp Hle. rewrite seeded_candidate in Hle.
    destruct (prime_le_7 p Hp Hle) as [-> | [-> | [-> | ->]]];
      [exists 0 | exists 1 | exists 2 | exists 3]; rewrite seeded_cells; reflexivity.
Qed.

Lemma seeded_wellformed (g : Z -> Z) (C : Z) : 3 <= C -> wellformed C (seeded g).
Proof.
  intros HC. split.
  - rewrite seeded_candidate. lia.
  - exists 3. reflexivity.
  - rewrite seeded_index. lia.
  - intros i. rewrite seeded_cells, seeded_index.
    repeat case_decide; split; intros Hi; try lia; try (eexists; reflexivity).
    destruct Hi as [? Hi]. discriminate.
  - rewrite seeded_cells. reflexivity.
  - intros i p Hi. rewrite seeded_cells in Hi.
    repeat case_decide; simplify_eq; lia.
Qed.

Lemma stop_cell (C : Z) (s : state) :
  wellformed C s -> regime s ->
  exists j pj, 1 <= j <= index s /\ primes s !! j = Some pj /\
               Z.sqrt (wrap32 (candidate s + 2)) < pj.
Proof.
  intros Hwf [(n & Hex & Hn) | (j & Hj & H65)].
  - pose proof (exact_candidate _ _ Hex) as Hc.
    assert (Hnot0 : forall i p, primes s !! i = Some p -> 2 < p -> 1 <= i <= index s).
    { intros i p Hi Hp.
      assert (0 <= i <= index s) by (apply (wf_filled _ _ Hwf); eauto).
      destruct (Z.eq_dec i 0) as [-> |]; [|lia].
      rewrite (exact_two _ _ Hex) in Hi. inversion Hi. lia. }
    destruct (Z_lt_le_dec (candidate s + 2) (2 ^ 32)) as [Hlt | Hge].
    + rewrite wrap32_small by lia.
      destruct (prime_above_sqrt (candidate s)) as (p & Hp & Hple & Hsq); [lia |].
      destruct (exact_complete _ _ Hex p Hp Hple) as (i & Hi).
      exists i, p. split; [|split; assumption].
      apply (Hnot0 i p Hi).
      assert (3 <= Z.sqrt (candidate s + 2)) by (apply Z.sqrt_le_square; lia).
      lia.
    + destruct (exact_complete _ _ Hex 65537 prime_65537 ltac:(lia)) as (i & Hi).
      exists i, 65537. split; [apply (Hnot0 i 65537 Hi); lia |].
      split; [exact Hi | apply sqrt_wrap32].
  - exists j, 65537. split; [exact Hj |]. split; [exact H65 | apply sqrt_wrap32].
Qed.

(** The scan of a turn ends within the written cells, with the same
    result whatever the stack held. *)
Lemma turn_scan (C : Z) (s : state) :
  wellformed C s -> regime s -> index s < C -> C < 2 ^ 32 ->
  exists b cnt,
    (forall g fuel, (Z.to_nat (index s) <= fuel)%nat ->
       scan g fuel (primes s) (wrap32 (candidate s + 2))
            (Z.sqrt (wrap32 (candidate s + 2))) 1 = Ok (b, cnt)) /\
    1 <= cnt <= index s /\
    scanned (primes s) (wrap32 (candidate s + 2))
            (Z.sqrt (wrap32 (candidate s + 2))) b cnt.
Proof.
  intros Hwf Hreg Hlt HC.
  destruct (stop_cell C s Hwf Hreg) as (j & pj & Hj & Hpj & Hst).
  pose proof (wf_index _ _ Hwf) as Hidx.
  destruct (scan_stops (primes s) (wrap32 (candidate s + 2))
              (Z.sqrt (wrap32 (candidate s + 2))) j pj Hpj Hst ltac:(lia)
              (Z.to_nat (index s)) 1) as (b & cnt & p & Hscan & Hcnt & Hp & Hbefore & Hend).
  - lia.
  - intros i Hi.
    destruct (proj2 (wf_filled _ _ Hwf i) ltac:(lia)) as [q Hq].
    exists q. split; [exact Hq | exact (wf_nonzero _ _ Hwf i q Hq)].
  - lia.
  - exists b, cnt. split; [|split; [lia |]].
    + intros g fuel Hfuel. eapply scan_fuel_mono; [apply Hscan | exact Hfuel].
    + exists p. split; [exact Hp |]. split; [exact Hbefore | exact Hend].
Qed.

Lemma body_next (g : Z -> Z) (fuel : nat) (s : state) (b : bool) (cnt : Z) :
  0 <= index s -> index s + 1 < 2 ^ 32 ->
  scan g fuel (primes s) (wrap32 (candidate s + 2))
       (Z.sqrt (wrap32 (candidate s + 2))) 1 = Ok (b, cnt) ->
  body g fuel s = Ok (next b s).
Proof.
  intros H0 H1 Hscan. unfold body.
  rewrite searchto_of_sqrt by apply wrap32_range.
  simpl. rewrite Hscan. simpl.
  unfold next. destruct b; [rewrite wrap32_small by lia |]; reflexivity.
Qed.

Lemma body_fuel_mono (g : Z -> Z) (f f' : nat) (s s' : state) :
  body g f s = Ok s' -> (f <= f')%nat -> body g f' s = Ok s'.
Proof.
  unfold body. intros H Hle.
  destruct (searchto_of (wrap32 (candidate s + 2))) as [st | |]; try discriminate.
  simpl in *.
  destruct (scan g f (primes s) (wrap32 (candidate s + 2)) st 1) as [r | |] eqn:E;
    try discriminate.
  rewrite (scan_fuel_mono _ _ _ _ _ _ _ _ E Hle). exact H.
Qed.

(** A turn from a state of the loop leaves [next b s], where [b] is the
    verdict of a scan that stayed within the written cells. *)
Lemma turn_next (C : Z) (g : Z -> Z) (fuel : nat) (s s' : state) :
  wellformed C s -> regime s -> index s < C -> C < 2 ^ 32 ->
  body g fuel s = Ok s' ->
  exists b cnt, s' = next b s /\ 1 <= cnt <= index s /\
    scanned (primes s) (wrap32 (candidate s + 2))
            (Z.sqrt (wrap32 (candidate s + 2))) b cnt.
Proof.
  intros Hwf Hreg Hlt HC Hbody.
  destruct (turn_scan C s Hwf Hreg Hlt HC) as (b & cnt & Hscan & Hcnt & Hsc).
  exists b, cnt. split; [|split; assumption].
  pose proof (wf_index _ _ Hwf).
  pose proof (body_fuel_mono g fuel (Nat.max fuel (Z.to_nat (index s))) s s' Hbody
                ltac:(lia)) as H1.
  rewrite (body_next g _ s b cnt) in H1; [congruence | lia | lia |].
  apply Hscan. lia.
Qed.

Lemma even_not_prime (h : Z) : 1 < h -> ~ Z.prime (2 * h).
Proof.
  intros Hh [_ Hp]. apply (Hp 2); [lia | exists h; lia].
Qed.

Lemma odd_not_divisible_by_2 (h : Z) : ~ (2 | 2 * h + 1).
Proof. intros [k Hk]. lia. Qed.

(** Without wrap-around the scan says "prime" exactly when the candidate
    is prime. *)
Lemma exact_decides (n : nat) (s : state) (b : bool) (cnt : Z) :
  exact n s -> filled s -> 1 <= cnt <= index s ->
  scanned (primes s) (candidate s + 2) (Z.sqrt (candidate s + 2)) b cnt ->
  (b = true <-> Z.prime (candidate s + 2)).
Proof.
  intros Hex Hfill Hcnt (p & Hp & Hbefore & Hend).
  pose proof (exact_candidate _ _ Hex) as Hc.
  set (c := candidate s + 2) in *.
  assert (Hc9 : 9 <= c) by (unfold c; lia).
  destruct (exact_sound _ _ Hex cnt p Hp) as [Hprime Hple].
  destruct b; split; intros H; try discriminate; try reflexivity.
  - apply trial_division; [lia |].
    intros q Hq Hqq Hdiv.
    pose proof (Z.prime_ge_2 q Hq) as Hq2.
    assert (Hqst : q <= Z.sqrt c) by (apply Z.sqrt_le_square; lia).
    destruct (Z.eq_dec q 2) as [-> | Hne].
    { apply (odd_not_divisible_by_2 (Z.of_nat n + 4)).
      replace (2 * (Z.of_nat n + 4) + 1) with c by (unfold c; lia). exact Hdiv. }
    assert (Hqc : q <= candidate s).
    { pose proof (Z.sqrt_lt_lin c ltac:(lia)).
      assert (q * q <= c) by exact Hqq. nia. }
    destruct (exact_complete _ _ Hex q Hq Hqc) as (i & Hi).
    assert (0 <= i <= index s) by (apply Hfill; eauto).
    assert (i <> 0).
    { intros ->. rewrite (exact_two _ _ Hex) in Hi. inversion Hi. lia. }
    assert (i < cnt).
    { destruct (Z_lt_le_dec i cnt) as [|Hge]; [assumption |].
      destruct (Z.eq_dec i cnt) as [-> |].
      - rewrite Hp in Hi. inversion Hi. lia.
      - pose proof (exact_increasing _ _ Hex cnt i p q Hp Hi ltac:(lia)). lia. }
    destruct (Hbefore i q ltac:(lia) Hi) as [_ Hmod].
    apply Hmod. apply Z.mod_divide; [lia | exact Hdiv].
  - exfalso. destruct Hend as [Hpst Hmod].
    pose proof (Z.prime_ge_2 p Hprime).
    destruct H as [_ Hno]. apply (Hno p).
    + pose proof (Z.sqrt_lt_lin c ltac:(lia)). lia.
    + apply Z.mod_divide; [lia | exact Hmod].
Qed.

Lemma next_candidate (b : bool) (s : state) :
  candidate (next b s) = wrap32 (candidate s + 2).
Proof. destruct b; reflexivity. Qed.

Lemma next_index (b : bool) (s : state) :
  index (next b s) = if b then index s + 1 else index s.
Proof. destruct b; reflexivity. Qed.

Lemma next_primes (b : bool) (s : state) :
  primes (next b s) =
    if b then <[index s + 1 := wrap32 (candidate s + 2)]> (primes s) else primes s.
Proof. destruct b; reflexivity. Qed.

(** A turn never changes a cell that was written. *)
Lemma next_keeps (b : bool) (s : state) (i p : Z) :
  filled s -> primes s !! i = Some p ->
  primes (next b s) !! i = Some p /\ 0 <= i <= index s.
Proof.
  intros Hfill Hi.
  assert (0 <= i <= index s) by (apply Hfill; eauto).
  split; [|assumption].
  rewrite next_primes. destruct b; [|exact Hi].
  rewrite lookup_insert_ne by lia. exact Hi.
Qed.

Lemma next_cells (b : bool) (s : state) (i p : Z) :
  filled s -> primes (next b s) !! i = Some p ->
  primes s !! i = Some p \/
  (b = true /\ i = index s + 1 /\ p = wrap32 (candidate s + 2)).
Proof.
  intros Hfill. rewrite next_primes. destruct b; [|auto].
  rewrite lookup_insert. case_decide.
  - intros H1. inversion H1. right. auto.
  - auto.
Qed.

Lemma exact_next (n : nat) (s : state) (b : bool) :
  exact n s -> filled s -> 7 + 2 * Z.of_nat (S n) < 2 ^ 32 ->
  (b = true <-> Z.prime (candidate s + 2)) ->
  exact (S n) (next b s).
Proof.
  intros Hex Hfill Hn Hb.
  pose proof (exact_candidate _ _ Hex) as Hc.
  assert (Hw : wrap32 (candidate s + 2) = candidate s + 2)
    by (apply wrap32_small; lia).
  split.
  - rewrite next_candidate, Hw. lia.
  - rewrite next_index. pose proof (exact_index _ _ Hex). destruct b; lia.
  - intros _. rewrite next_index.
    pose proof (exact_index _ _ Hex) as Hi.
    destruct b; [|lia].
    destruct n as [|n]; [|pose proof (exact_index_nine _ _ Hex ltac:(lia)); lia].
    exfalso. destruct Hb as [Hb _]. specialize (Hb eq_refl).
    rewrite Hc in Hb. destruct Hb as [_ Hb].
    apply (Hb 3); [lia | exists 3; reflexivity].
  - apply (next_keeps b s 0 2 Hfill (exact_two _ _ Hex)).
  - intros i j p q Hi Hj Hij.
    destruct (next_cells b s i p Hfill Hi) as [Hi' | (_ & -> & ->)];
      destruct (next_cells b s j q Hfill Hj) as [Hj' | (_ & -> & ->)].
    + exact (exact_increasing _ _ Hex i j p q Hi' Hj' Hij).
    + destruct (exact_sound _ _ Hex i p Hi'). lia.
    + assert (0 <= j <= index s) by (apply Hfill; eauto). lia.
    + lia.
  - intros i p Hi. rewrite next_candidate, Hw.
    destruct (next_cells b s i p Hfill Hi) as [Hi' | (-> & _ & ->)].
    + destruct (exact_sound _ _ Hex i p Hi'). split; [assumption | lia].
    + rewrite Hw. split; [apply Hb; reflexivity | lia].
  - intros p Hp. rewrite next_candidate, Hw. intros Hle.
    destruct (Z_le_gt_dec p (candidate s)) as [Hold | Hnew].
    + destruct (exact_complete _ _ Hex p Hp Hold) as (i & Hi).
      exists i. apply (next_keeps b s i p Hfill Hi).
    + destruct (Z.eq_dec p (candidate s + 1)) as [-> | Hne].
      { exfalso. apply (even_not_prime (Z.of_nat n + 4)); [lia |].
        replace (2 * (Z.of_nat n + 4)) with (candidate s + 1) by lia. exact Hp. }
      assert (p = candidate s + 2) by lia. subst p.
      apply Hb in Hp. subst b.
      exists (index s + 1). rewrite next_primes, Hw. apply lookup_insert_eq.
Qed.

Lemma wellformed_next (C : Z) (s : state) (b : bool) :
  wellformed C s -> index s < C -> wellformed C (next b s).
Proof.
  intros Hwf Hlt.
  pose proof (wf_candidate _ _ Hwf) as Hc.
  destruct (wf_odd _ _ Hwf) as [h Hh].
  assert (Hodd : exists h', wrap32 (candidate s + 2) = 2 * h' + 1).
  { destruct (Z_lt_le_dec (candidate s + 2) (2 ^ 32)).
    - exists (h + 1). rewrite wrap32_small; lia.
    - exists (h + 1 - 2 ^ 31). unfold wrap32.
      symmetry. apply (Z.mod_unique _ _ 1); lia. }
  split.
  - rewrite next_candidate. apply wrap32_range.
  - rewrite next_candidate. exact Hodd.
  - rewrite next_index. pose proof (wf_index _ _ Hwf). destruct b; lia.
  - intros i. rewrite next_index, next_primes.
    pose proof (wf_filled _ _ Hwf i) as Hf. pose proof (wf_index _ _ Hwf).
    destruct b; [|exact Hf].
    rewrite lookup_insert. case_decide.
    + subst i. split; [lia | eauto].
    + rewrite Hf. lia.
  - apply (next_keeps b s 1 3 (wf_filled _ _ Hwf) (wf_three _ _ Hwf)).
  - intros i p Hi.
    destruct (next_cells b s i p (wf_filled _ _ Hwf) Hi) as [Hi' | (_ & _ & ->)].
    + exact (wf_nonzero _ _ Hwf i p Hi').
    + destruct Hodd as [h' ->]. lia.
Qed.

Lemma regime_next (C : Z) (s : state) (b : bool) (cnt : Z) :
  wellformed C s -> regime s -> 1 <= cnt <= index s ->
  scanned (primes s) (wrap32 (candidate s + 2))
          (Z.sqrt (wrap32 (candidate s + 2))) b cnt ->
  regime (next b s).
Proof.
  intros Hwf Hreg Hcnt Hsc.
  pose proof (wf_filled _ _ Hwf) as Hfill.
  assert (Hbig : forall j, 1 <= j -> primes s !! j = Some 65537 -> regime (next b s)).
  { intros j Hj H65. right. exists j.
    destruct (next_keeps b s j 65537 Hfill H65) as [Hk Hr].
    split; [|exact Hk]. rewrite next_index. destruct b; lia. }
  destruct Hreg as [(n & Hex & Hn) | (j & Hj & H65)]; [|apply (Hbig j); tauto].
  pose proof (exact_candidate _ _ Hex) as Hc.
  destruct (Z_lt_le_dec (7 + 2 * Z.of_nat (S n)) (2 ^ 32)) as [Hlt | Hge].
  - left. exists (S n). split; [|exact Hlt].
    rewrite wrap32_small in Hsc by lia.
    apply exact_next; try assumption.
    apply (exact_decides n s b cnt); assumption.
  - destruct (exact_complete _ _ Hex 65537 prime_65537 ltac:(lia)) as (i & Hi).
    apply (Hbig i); [|exact Hi].
    assert (0 <= i <= index s) by (apply Hfill; eauto).
    destruct (Z.eq_dec i 0) as [-> |]; [|lia].
    rewrite (exact_two _ _ Hex) in Hi. discriminate.
Qed.

(** Every state at the head of the loop is well formed and in one of the
    two regimes. *)
Lemma reach_wellformed (g : Z -> Z) (C : Z) (n : nat) (s : state) :
  3 < C < 2 ^ 32 -> reach g C n s -> wellformed C s /\ regime s.
Proof.
  intros HC Hr. induction Hr as [|n s s' fuel Hr [Hwf Hreg] Hlt Hbody].
  - split; [apply seeded_wellformed; lia |].
    left. exists O. split; [apply seeded_exact | lia].
  - destruct (turn_next C g fuel s s' Hwf Hreg Hlt ltac:(lia) Hbody)
      as (b & cnt & -> & Hcnt & Hsc).
    split; [apply wellformed_next; assumption |].
    apply (regime_next C s b cnt); assumption.
Qed.

(** As long as no candidate has wrapped, the state is the exact one. *)
Lemma reach_exact (g : Z -> Z) (C : Z) (n : nat) (s : state) :
  3 < C < 2 ^ 32 -> reach g C n s -> 7 + 2 * Z.of_nat n < 2 ^ 32 -> exact n s.
Proof.
  intros HC Hr. induction Hr as [|n s s' fuel Hr IH Hlt Hbody]; intros Hn.
  - apply seeded_exact.
  - destruct (reach_wellformed g C n s HC Hr) as [Hwf Hreg].
    destruct (turn_next C g fuel s s' Hwf Hreg Hlt ltac:(lia) Hbody)
      as (b & cnt & -> & Hcnt & Hsc).
    specialize (IH ltac:(lia)).
    pose proof (exact_candidate _ _ IH) as Hc.
    rewrite wrap32_small in Hsc by lia.
    apply exact_next; [exact IH | apply (wf_filled _ _ Hwf) | exact Hn |].
    apply (exact_decides n s b cnt); try assumption. apply (wf_filled _ _ Hwf).
Qed.

Lemma exact_first_primes (n : nat) (s : state) :
  exact n s -> filled s -> first_primes s.
Proof.
  intros Hex Hfill k Hk.
  destruct (proj2 (Hfill k) Hk) as [q Hq].
  exists q. split; [exact Hq |]. split.
  - intros i p Hi Hp. exact (exact_increasing _ _ Hex i k p q Hp Hq ltac:(lia)).
  - intros p. split.
    + intros [Hp Hle].
      destruct (exact_sound _ _ Hex k q Hq) as [_ Hqc].
      destruct (exact_complete _ _ Hex p Hp ltac:(lia)) as (i & Hi).
      exists i. split; [|exact Hi].
      assert (0 <= i <= index s) by (apply Hfill; eauto).
      destruct (Z_le_gt_dec i k); [lia |].
      pose proof (exact_increasing _ _ Hex k i q p Hq Hi ltac:(lia)). lia.
    + intros (i & Hi & Hp).
      destruct (exact_sound _ _ Hex i p Hp) as [Hprime _].
      split; [exact Hprime |].
      destruct (Z.eq_dec i k) as [-> |].
      * rewrite Hq in Hp. inversion Hp. lia.
      * pose proof (exact_increasing _ _ Hex i k p q Hp Hq ltac:(lia)). lia.
Qed.

End Invariants.

(** * Termination *)

Section Termination.

Lemma seeded_stack (g g' : Z -> Z) : seeded g = seeded g'.
Proof. reflexivity. Qed.

Lemma loop_fuel_mono (g : Z -> Z) (C : Z) (f f' : nat) :
  forall s s', loop g C f s = Ok s' -> (f <= f')%nat -> loop g C f' s = Ok s'.
Proof.
  revert f'. induction f as [|f IH]; intros f' s s' H Hle; [discriminate |].
  destruct f' as [|f']; [lia |].
  simpl in *. destruct (index s <? C); [|exact H].
  destruct (body g f s) as [s1 | |] eqn:E; try discriminate.
  rewrite (body_fuel_mono g f f' s s1 E ltac:(lia)).
  simpl in *. apply IH; [exact H | lia].
Qed.

(** When the candidate wraps round to 1 the scan stops at once on
    [primes[1] = 3], and 1 is stored. *)
Lemma wrapped_candidate_stored (C : Z) (s : state) (b : bool) (cnt : Z) :
  wellformed C s -> candidate s = 2 ^ 32 - 1 -> 1 <= cnt ->
  scanned (primes s) (wrap32 (candidate s + 2))
          (Z.sqrt (wrap32 (candidate s + 2))) b cnt ->
  wrap32 (candidate s + 2) = 1 /\ b = true.
Proof.
  intros Hwf Hc Hcnt (p & Hp & Hbefore & Hend).
  rewrite Hc in *.
  change (wrap32 (2 ^ 32 - 1 + 2)) with 1 in *. change (Z.sqrt 1) with 1 in *.
  split; [reflexivity |].
  pose proof (wf_three _ _ Hwf) as H3.
  destruct (Z.eq_dec cnt 1) as [-> | Hne].
  - rewrite H3 in Hp. inversion Hp. subst p. destruct b; [reflexivity | lia].
  - destruct (Hbefore 1 3 ltac:(lia) H3). lia.
Qed.

(** The loop ends, with [index] equal to [PRIMECOUNT], in a state that
    does not depend on what the stack held. *)
Lemma loop_total (C : Z) :
  3 < C < 2 ^ 32 ->
  forall m, 0 <= m -> forall s n0,
    (C - index s) * 2 ^ 32 + (2 ^ 32 - 1 - candidate s) <= m ->
    wellformed C s -> regime s -> (forall g, reach g C n0 s) ->
    exists s' n fuel0,
      (forall g fuel, (fuel0 <= fuel)%nat -> loop g C fuel s = Ok s') /\
      index s' = C /\ (forall g, reach g C n s').
Proof.
  intros HC m Hm. pattern m. apply natlike_ind; [| |exact Hm]; clear m Hm.
  - intros s n0 Hmu Hwf Hreg Hreach.
    pose proof (wf_index _ _ Hwf). pose proof (wf_candidate _ _ Hwf).
    assert (index s = C) by nia.
    exists s, n0, 1%nat. split; [|split; assumption].
    intros g fuel Hfuel. destruct fuel as [|fuel]; [lia |].
    simpl. destruct (Z.ltb_spec (index s) C); [lia | reflexivity].
  - intros m Hm IH s n0 Hmu Hwf Hreg Hreach.
    pose proof (wf_index _ _ Hwf) as Hidx. pose proof (wf_candidate _ _ Hwf) as Hcand.
    destruct (Z_lt_le_dec (index s) C) as [Hlt | Hge].
    + destruct (turn_scan C s Hwf Hreg Hlt ltac:(lia)) as (b & cnt & Hscan & Hcnt & Hsc).
      assert (Hbody : forall g fuel, (Z.to_nat (index s) <= fuel)%nat ->
                                     body g fuel s = Ok (next b s)).
      { intros g fuel Hfuel. apply (body_next g fuel s b cnt); [lia | lia |].
        apply Hscan. exact Hfuel. }
      destruct (IH (next b s) (S n0)) as (s' & n & fuel1 & Hloop & Hfin & Hreach').
      * rewrite next_index, next_candidate.
        pose proof (wrap32_range (candidate s + 2)).
        destruct b; [nia |].
        destruct (Z.eq_dec (candidate s) (2 ^ 32 - 1)) as [Hw | Hnw].
        { destruct (wrapped_candidate_stored C s false cnt Hwf Hw ltac:(lia) Hsc).
          discriminate. }
        destruct (wf_odd _ _ Hwf) as [h Hh].
        rewrite wrap32_small by lia. lia.
      * apply wellformed_next; assumption.
      * apply (regime_next C s b cnt); assumption.
      * intros g. apply (reach_turn g C n0 s (next b s) (Z.to_nat (index s)));
          [apply Hreach | exact Hlt | apply Hbody; lia].
      * exists s', n, (S (Nat.max fuel1 (Z.to_nat (index s)))).
        split; [|split; assumption].
        intros g fuel Hfuel. destruct fuel as [|fuel]; [lia |].
        simpl. destruct (Z.ltb_spec (index s) C); [|lia].
        rewrite Hbody by lia. simpl. apply Hloop. lia.
    + exists s, n0, 1%nat. split; [|split; [lia | assumption]].
      intros g fuel Hfuel. destruct fuel as [|fuel]; [lia |].
      simpl. destruct (Z.ltb_spec (index s) C); [lia | reflexivity].
Qed.

Lemma generate_total (C : Z) :
  3 < C < 2 ^ 32 ->
  exists s n fuel0,
    (forall g fuel, (fuel0 <= fuel)%nat -> generate g C fuel = Ok s) /\
    index s = C /\ (forall g, reach g C n s).
Proof.
  intros HC.
  destruct (loop_total C HC ((C - 3) * 2 ^ 32 + (2 ^ 32 - 1 - 7)) ltac:(lia)
              (seeded zero_stack) O) as (s & n & fuel0 & Hloop & Hidx & Hreach).
  - rewrite seeded_index, seeded_candidate. lia.
  - apply seeded_wellformed. lia.
  - left. exists O. split; [apply seeded_exact | lia].
  - intros g. rewrite (seeded_stack zero_stack g). apply reach_seeded.
  - exists s, n, fuel0. split; [|split; assumption].
    intros g fuel Hfuel. unfold generate. rewrite (seeded_stack g zero_stack).
    apply Hloop. exact Hfuel.
Qed.

End Termination.

(** * The generator: what the specification says of it *)

Section Generator.

(** Without wrap-around the loop can be followed turn by turn. *)
Lemma exact_reachable (C : Z) (n : nat) :
  3 < C < 2 ^ 32 -> Z.of_nat n + 3 <= C -> 7 + 2 * Z.of_nat n < 2 ^ 32 ->
  exists s, (forall g, reach g C n s) /\ exact n s /\ wellformed C s.
Proof.
  intros HC. induction n as [|n IH]; intros Hn Hnowrap.
  - exists (seeded zero_stack). split; [|split].
    + intros g. rewrite (seeded_stack zero_stack g). apply reach_seeded.
    + apply seeded_exact.
    + apply seeded_wellformed. lia.
  - destruct IH as (s & Hreach & Hex & Hwf); [lia | lia |].
    assert (Hreg : regime s) by (left; exists n; split; [exact Hex | lia]).
    assert (Hlt : index s < C).
    { pose proof (exact_index _ _ Hex). destruct n as [|n]; [lia |].
      pose proof (exact_index_nine _ _ Hex ltac:(lia)). lia. }
    destruct (turn_scan C s Hwf Hreg Hlt ltac:(lia)) as (b & cnt & Hscan & Hcnt & Hsc).
    pose proof (wf_index _ _ Hwf) as Hidx.
    assert (Hreach' : forall g, reach g C (S n) (next b s)).
    { intros g. apply (reach_turn g C n s (next b s) (Z.to_nat (index s)));
        [apply Hreach | exact Hlt |].
      apply (body_next g _ s b cnt); [lia | lia | apply Hscan; lia]. }
    exists (next b s). split; [exact Hreach' |]. split.
    + apply (reach_exact zero_stack C); [exact HC | apply Hreach' | exact Hnowrap].
    + apply wellformed_next; assumption.
Qed.

(** The last turn of a finished loop stored its candidate in
    [primes[PRIMECOUNT]]. *)
Lemma last_store (g : Z -> Z) (C : Z) (n : nat) (s : state) :
  3 < C < 2 ^ 32 -> reach g C n s -> index s = C ->
  primes s !! C = Some (candidate s).
Proof.
  intros HC Hreach Hidx. destruct Hreach as [|n s s' fuel Hr Hlt Hbody].
  - rewrite seeded_index in Hidx. lia.
  - destruct (reach_wellformed g C n s HC Hr) as [Hwf Hreg].
    destruct (turn_next C g fuel s s' Hwf Hreg Hlt ltac:(lia) Hbody)
      as (b & cnt & -> & _ & _).
    rewrite next_index in Hidx. destruct b; [|lia].
    rewrite next_primes, next_candidate. rewrite <- Hidx. apply lookup_insert_eq.
Qed.

(** C1 (the code departs from it).  The claim: for every capacity [C > 3]
    the loop runs while [index < C - 1] and never stores at an index
    [>= C].  The code runs while [index < PRIMECOUNT]: for every capacity
    the call ends with [index = C] after storing its last candidate in
    [primes[C]], one cell past the end of the array, so that [C + 1]
    cells, 0 to [C], have been written. *)
Theorem primer_writes_past_the_array (C : Z) :
  3 < C < 2 ^ 32 ->
  exists s fuel0,
    (forall g fuel, (fuel0 <= fuel)%nat -> generate g C fuel = Ok s) /\
    index s = C /\ primes s !! C = Some (candidate s) /\ filled s.
Proof.
  intros HC.
  destruct (generate_total C HC) as (s & n & fuel0 & Hgen & Hidx & Hreach).
  exists s, fuel0. split; [exact Hgen |]. split; [exact Hidx |]. split.
  - apply (last_store zero_stack C n s HC (Hreach zero_stack) Hidx).
  - destruct (reach_wellformed zero_stack C n s HC (Hreach zero_stack)) as [Hwf _].
    apply (wf_filled _ _ Hwf).
Qed.

Lemma primer_writes_past_the_array_witness :
  3 < 60000 < 2 ^ 32 /\
  exists s fuel0,
    (forall g fuel, (fuel0 <= fuel)%nat -> generate g 60000 fuel = Ok s) /\
    index s = 60000 /\ primes s !! 60000 = Some (candidate s) /\ filled s.
Proof.
  split; [lia | apply (primer_writes_past_the_array 60000); lia].
Defined.

(** C2 as stated fails: with [PRIMECOUNT = INT_MAX] the candidate reaches
    [2^32 - 1] before the buffer is full, the next candidate wraps round
    to 1, and 1 is stored after the primes. *)
Lemma first_primes_fails_after_wrap :
  exists n s, reach zero_stack INT_MAX n s /\ ~ first_primes s.
Proof.
  assert (HC : 3 < INT_MAX < 2 ^ 32) by (unfold INT_MAX; lia).
  set (n1 := Z.to_nat (2 ^ 31 - 4)).
  assert (Hn1 : Z.of_nat n1 = 2 ^ 31 - 4) by (unfold n1; lia).
  destruct (exact_reachable INT_MAX n1 HC) as (s & Hreach & Hex & Hwf);
    [unfold INT_MAX; lia | lia |].
  assert (Hreg : regime s) by (left; exists n1; split; [exact Hex | lia]).
  pose proof (exact_candidate _ _ Hex) as Hc.
  assert (Hlt : index s < INT_MAX).
  { pose proof (exact_index_nine _ _ Hex ltac:(lia)). unfold INT_MAX. lia. }
  destruct (turn_scan INT_MAX s Hwf Hreg Hlt ltac:(lia)) as (b & cnt & Hscan & Hcnt & Hsc).
  destruct (wrapped_candidate_stored INT_MAX s b cnt Hwf ltac:(lia) ltac:(lia) Hsc)
    as [Hone ->].
  pose proof (wf_index _ _ Hwf) as Hidx.
  exists (S n1), (next true s). split.
  - apply (reach_turn zero_stack INT_MAX n1 s (next true s) (Z.to_nat (index s)));
      [apply Hreach | exact Hlt |].
    apply (body_next zero_stack _ s true cnt); [lia | lia | apply Hscan; lia].
  - intros Hfirst.
    destruct (Hfirst (index s + 1)) as (q & Hq & _ & Hiff).
    { rewrite next_index. lia. }
    rewrite next_primes, lookup_insert_eq, Hone in Hq. inversion Hq. subst q.
    destruct (proj2 (Hiff 2)) as [_ Hle]; [|lia].
    exists 0. split; [lia |].
    apply (next_keeps true s 0 2 (wf_filled _ _ Hwf) (exact_two _ _ Hex)).
Qed.

(** C2, amended.  At the head of every turn reached before a candidate
    has left the range of [uint32_t] (after [n] turns the candidate is
    [7 + 2n]), the cells 0 to [index] are all written and nothing above
    them is, and for every [k <= index] the cells 0 to [k] hold exactly
    the [k+1] smallest primes in strictly increasing order. *)
Theorem first_primes_invariant (g : Z -> Z) (C : Z) (n : nat) (s : state) :
  3 < C < 2 ^ 32 -> reach g C n s -> 7 + 2 * Z.of_nat n < 2 ^ 32 ->
  candidate s = 7 + 2 * Z.of_nat n /\ filled s /\ increasing s /\ first_primes s.
Proof.
  intros HC Hreach Hn.
  pose proof (reach_exact g C n s HC Hreach Hn) as Hex.
  destruct (reach_wellformed g C n s HC Hreach) as [Hwf _].
  split; [apply (exact_candidate _ _ Hex) |].
  split; [apply (wf_filled _ _ Hwf) |].
  split; [apply (exact_increasing _ _ Hex) |].
  apply (exact_first_primes n s Hex (wf_filled _ _ Hwf)).
Qed.

Lemma eleven_stored_reached (C : Z) : 3 < C -> reach zero_stack C 2 eleven_stored.
Proof.
  intros HC.
  apply (reach_turn zero_stack C 1 (next false (seeded zero_stack)) eleven_stored 5).
  - apply (reach_turn zero_stack C 0 (seeded zero_stack) _ 5);
      [apply reach_seeded | exact HC | vm_compute; reflexivity].
  - exact HC.
  - vm_compute. reflexivity.
Defined.

Lemma first_primes_invariant_witness :
  (3 < 10 < 2 ^ 32 /\ reach zero_stack 10 2 eleven_stored /\
   7 + 2 * Z.of_nat 2 < 2 ^ 32) /\
  candidate eleven_stored = 7 + 2 * Z.of_nat 2 /\ filled eleven_stored /\
  increasing eleven_stored /\ first_primes eleven_stored.
Proof.
  assert (Hr : reach zero_stack 10 2 eleven_stored)
    by (apply eleven_stored_reached; reflexivity).
  split; [split; [lia | split; [exact Hr | lia]] |].
  apply (first_primes_invariant zero_stack 10 2 eleven_stored); [lia | exact Hr | lia].
Defined.

(** C3.  At the head of every turn, wrap-around or not, the scan of the
    next candidate ends with [count] between 1 and [index]: it reads only
    cells that were written during this call, all of them inside the
    array since [index < PRIMECOUNT]; [count] goes up from 1 one by one,
    so every value it takes is at most [index]. *)
Theorem scan_within_filled (g : Z -> Z) (C : Z) (n : nat) (s : state) :
  3 < C < 2 ^ 32 -> reach g C n s -> index s < C ->
  exists st b cnt,
    searchto_of (wrap32 (candidate s + 2)) = Ok st /\
    (forall fuel, (Z.to_nat (index s) <= fuel)%nat ->
       scan g fuel (primes s) (wrap32 (candidate s + 2)) st 1 = Ok (b, cnt)) /\
    1 <= cnt <= index s /\ index s < C /\
    (forall i, 0 <= i <= index s -> is_Some (primes s !! i)).
Proof.
  intros HC Hreach Hlt.
  destruct (reach_wellformed g C n s HC Hreach) as [Hwf Hreg].
  destruct (turn_scan C s Hwf Hreg Hlt ltac:(lia)) as (b & cnt & Hscan & Hcnt & _).
  exists (Z.sqrt (wrap32 (candidate s + 2))), b, cnt.
  split; [apply searchto_of_sqrt, wrap32_range |].
  split; [intros fuel Hfuel; apply Hscan; exact Hfuel |].
  split; [exact Hcnt |]. split; [exact Hlt |].
  intros i Hi. apply (wf_filled _ _ Hwf). exact Hi.
Qed.

Lemma scan_within_filled_witness :
  (3 < 10 < 2 ^ 32 /\ reach zero_stack 10 2 eleven_stored /\
   index eleven_stored < 10) /\
  exists st b cnt,
    searchto_of (wrap32 (candidate eleven_stored + 2)) = Ok st /\
    (forall fuel, (Z.to_nat (index eleven_stored) <= fuel)%nat ->
       scan zero_stack fuel (primes eleven_stored)
            (wrap32 (candidate eleven_stored + 2)) st 1 = Ok (b, cnt)) /\
    1 <= cnt <= index eleven_stored /\ index eleven_stored < 10 /\
    (forall i, 0 <= i <= index eleven_stored -> is_Some (primes eleven_stored !! i)).
Proof.
  assert (Hr : reach zero_stack 10 2 eleven_stored)
    by (apply eleven_stored_reached; reflexivity).
  split; [split; [lia | split; [exact Hr | reflexivity]] |].
  apply (scan_within_filled zero_stack 10 2 eleven_stored);
    [lia | exact Hr | reflexivity].
Defined.

(** The scenario of capacity 10: the ten primes up to 29 are in the
    cells 0 to 9, and 31 has been stored in [primes[10]]. *)
Lemma generate_10 (g : Z -> Z) (fuel : nat) :
  exists s, generate g 10 (16 + fuel) = Ok s /\
    map (fun i => primes s !! i) [0; 1; 2; 3; 4; 5; 6; 7; 8; 9; 10; 11] =
      [Some 2; Some 3; Some 5; Some 7; Some 11; Some 13; Some 17; Some 19;
       Some 23; Some 29; Some 31; None] /\
    candidate s = 31 /\ index s = 10.
Proof.
  destruct (generate g 10 16) as [s | |] eqn:E; try (vm_compute in E; discriminate).
  exists s. split; [apply (loop_fuel_mono g 10 16); [exact E | lia] |].
  vm_compute in E. inversion E. repeat split; reflexivity.
Qed.

(** C4 (the code departs from it).  The claim: with capacity 4 no search
    is made and nothing beyond the four seeds is stored.  The code enters
    the loop, since [index = 3 < 4]: it tests 9 and 11 and stores 11 in
    [primes[4]], whatever the stack held. *)
Theorem generate_4_stores_a_fifth_prime (g : Z -> Z) (fuel : nat) :
  generate g 4 (4 + fuel) = Ok eleven_stored /\
  candidate eleven_stored = 11 /\ index eleven_stored = 4 /\
  primes eleven_stored !! 4 = Some 11 /\
  (forall i, 0 <= i <= 3 -> primes eleven_stored !! i = primes (seeded g) !! i).
Proof.
  split.
  - apply (loop_fuel_mono g 4 4); [vm_compute; reflexivity | lia].
  - split; [reflexivity |]. split; [reflexivity |]. split; [reflexivity |].
    intros i Hi.
    assert (Hc : i = 0 \/ i = 1 \/ i = 2 \/ i = 3) by lia.
    destruct Hc as [-> | [-> | [-> | ->]]]; reflexivity.
Qed.

(** C5 (the code departs from it).  The claim: for every capacity
    [C <= 3] the call fails with a capacity error and neither seeds nor
    searches.  The code has no check of [PRIMECOUNT]: it stores the four
    seeds whatever the capacity, so that for a capacity [C] of 0 to 3
    the seeds of the cells [C] to 3 are stored past the end of the array
    of [C] cells; it then finds the guard of the loop false at once and
    ends with no error, whatever the stack held. *)
Theorem small_capacity_is_seeded_past_the_array (g : Z -> Z) (C : Z) (fuel : nat) :
  0 <= C <= 3 ->
  generate g C (S fuel) = Ok (seeded g) /\
  index (seeded g) = 3 /\
  primes (seeded g) !! 0 = Some 2 /\ primes (seeded g) !! 1 = Some 3 /\
  primes (seeded g) !! 2 = Some 5 /\ primes (seeded g) !! 3 = Some 7 /\
  (forall i, C <= i <= 3 -> is_Some (primes (seeded g) !! i)).
Proof.
  intros HC. split.
  - unfold generate. cbn [loop]. rewrite seeded_index.
    destruct (Z.ltb_spec 3 C); [lia | reflexivity].
  - split; [reflexivity |]. do 4 (split; [reflexivity |]).
    intros i Hi.
    assert (Hc : i = 0 \/ i = 1 \/ i = 2 \/ i = 3) by lia.
    destruct Hc as [-> | [-> | [-> | ->]]]; eexists; reflexivity.
Qed.

Lemma small_capacity_is_seeded_past_the_array_witness :
  0 <= 3 <= 3 /\
  generate zero_stack 3 1 = Ok (seeded zero_stack) /\
  index (seeded zero_stack) = 3 /\
  primes (seeded zero_stack) !! 0 = Some 2 /\ primes (seeded zero_stack) !! 1 = Some 3 /\
  primes (seeded zero_stack) !! 2 = Some 5 /\ primes (seeded zero_stack) !! 3 = Some 7 /\
  (forall i, 3 <= i <= 3 -> is_Some (primes (seeded zero_stack) !! i)).
Proof.
  split; [lia | apply (small_capacity_is_seeded_past_the_array zero_stack 3 0); lia].
Defined.

(** C6.  For every capacity the call ends, and the state it ends in (the
    cells written, the last candidate, the index) is the same for every
    content of the stack under [primes], which is all that earlier calls
    can leave behind: the function keeps no other state. *)
Theorem generate_is_deterministic (C : Z) :
  3 < C < 2 ^ 32 ->
  exists s fuel0, forall g1 g2 fuel1 fuel2,
    (fuel0 <= fuel1)%nat -> (fuel0 <= fuel2)%nat ->
    generate g1 C fuel1 = Ok s /\ generate g2 C fuel2 = Ok s.
Proof.
  intros HC.
  destruct (generate_total C HC) as (s & n & fuel0 & Hgen & _ & _).
  exists s, fuel0. intros g1 g2 fuel1 fuel2 H1 H2.
  split; apply Hgen; assumption.
Qed.

Lemma generate_is_deterministic_witness :
  3 < 60000 < 2 ^ 32 /\
  exists s fuel0, forall g1 g2 fuel1 fuel2,
    (fuel0 <= fuel1)%nat -> (fuel0 <= fuel2)%nat ->
    generate g1 60000 fuel1 = Ok s /\ generate g2 60000 fuel2 = Ok s.
Proof.
  split; [lia | apply (generate_is_deterministic 60000); lia].
Defined.

(** C9.  For every candidate, a value of a [uint32_t], the search limit
    [trunc(sqrt(candidate))] computed in double precision is the integer
    square root: the largest [st] with [st * st <= candidate]. *)
Theorem searchto_is_the_integer_square_root (c : Z) :
  exists st, searchto_of (wrap32 c) = Ok st /\ st = Z.sqrt (wrap32 c) /\
             0 <= st /\ st * st <= wrap32 c < (st + 1) * (st + 1).
Proof.
  pose proof (wrap32_range c) as Hc.
  exists (Z.sqrt (wrap32 c)). split; [apply searchto_of_sqrt; exact Hc |].
  split; [reflexivity |]. split; [apply Z.sqrt_nonneg |].
  pose proof (Z.sqrt_spec (wrap32 c) ltac:(lia)) as H. cbv zeta in H. lia.
Qed.

End Generator.

(** * The runner: what the specification says of it *)

Section TrialRunner.

Lemma averages_app (a b : list line) : averages (a ++ b) = averages a ++ averages b.
Proof.
  induction a as [|[] a IH]; simpl; try exact IH; [reflexivity |].
  rewrite IH. reflexivity.
Qed.

Lemma in_averages (out : list line) (t : spec_float) (p : Z) (a : spec_float) :
  In (RuntimePassAverage t p a) out <-> In (t, p, a) (averages out).
Proof.
  induction out as [|l out IH]; simpl; [tauto |].
  destruct l; simpl; rewrite <- IH; intuition (try discriminate; try congruence).
Qed.

Lemma main_turn_idle (C : Z) (fuel : nat) (st : main_state) (i : turn_input) :
  button i = false -> main_turn C fuel st i = mkIO [] (Ok st).
Proof. intros H. unfold main_turn. rewrite H. reflexivity. Qed.

(** The averages printed by a turn with the button pressed: none on the
    first pass or when the turn stops early, and otherwise the one of the
    new pass count. *)
Lemma main_turn_pressed (C : Z) (fuel : nat) (st : main_state) (i : turn_input) :
  button i = true ->
  let e := elapsed (start_us i) (stop_us i) in
  let t := main_turn C fuel st i in
  (averages (printed t) = [] \/
   (passcount st <> 0 /\ passcount st < INT_MAX /\
    averages (printed t) =
      [(e, passcount st + 1,
        Single.div (Single.add (total_runs st) e) (Single.of_Z (passcount st + 1)))])) /\
  forall st', outcome t = Ok st' ->
    passcount st < INT_MAX /\ passcount st' = passcount st + 1 /\
    (passcount st = 0 -> total_runs st' = e /\ averages (printed t) = []) /\
    (passcount st <> 0 ->
       total_runs st' = Single.add (total_runs st) e /\
       averages (printed t) =
         [(e, passcount st + 1,
           Single.div (Single.add (total_runs st) e) (Single.of_Z (passcount st + 1)))]).
Proof.
  intros Hb. unfold main_turn, primer. rewrite Hb.
  unfold mbind, io_bind, mret, io_ret, printf, run.
  destruct (Z.ltb_spec (passcount st) INT_MAX) as [Hlt | Hge]; simpl;
    [|split; [left; reflexivity | discriminate]].
  destruct (Z.eqb_spec (passcount st + 1) 1) as [H1 | H1]; simpl;
    destruct (generate (stack i) C fuel) as [s | |]; simpl;
    try (split; [left; reflexivity | discriminate]).
  - split; [left; reflexivity |].
    intros st' H. inversion H. subst st'. simpl.
    split; [exact Hlt |]. split; [reflexivity |]. split; [auto | lia].
  - split.
    + right. split; [lia |]. split; [exact Hlt | reflexivity].
    + intros st' H. inversion H. subst st'. simpl.
      split; [exact Hlt |]. split; [reflexivity |]. split; [lia | auto].
Qed.

Lemma main_loop_cons (C : Z) (fuel : nat) (st st' : main_state) (i : turn_input)
      (rest : list turn_input) :
  outcome (main_loop C fuel st (i :: rest)) = Ok st' ->
  exists st1,
    outcome (main_turn C fuel st i) = Ok st1 /\
    outcome (main_loop C fuel st1 rest) = Ok st' /\
    printed (main_loop C fuel st (i :: rest)) =
      printed (main_turn C fuel st i) ++ printed (main_loop C fuel st1 rest).
Proof.
  simpl. unfold mbind, io_bind.
  destruct (outcome (main_turn C fuel st i)) as [st1 | |]; simpl; try discriminate.
  intros H. exists st1. auto.
Qed.

(** After the first pass: every trigger adds its time to the total and
    prints the total divided by the pass count. *)
Lemma main_loop_averages (C : Z) (fuel : nat) (inputs : list turn_input) :
  forall st st',
    1 <= passcount st -> outcome (main_loop C fuel st inputs) = Ok st' ->
    let es := trigger_times inputs in
    let out := printed (main_loop C fuel st inputs) in
    passcount st' = passcount st + Z.of_nat (length es) /\
    total_runs st' = fold_left Single.add es (total_runs st) /\
    length (averages out) = length es /\
    forall j e, nth_error es j = Some e ->
      nth_error (averages out) j =
        Some (e, passcount st + 1 + Z.of_nat j,
              Single.div (fold_left Single.add (firstn (S j) es) (total_runs st))
                         (Single.of_Z (passcount st + 1 + Z.of_nat j))).
Proof.
  induction inputs as [|i rest IH]; intros st st' Hk Hloop.
  - simpl in Hloop. inversion Hloop. subst. simpl.
    split; [lia |]. split; [reflexivity |]. split; [reflexivity |].
    intros [|j] e H; discriminate.
  - destruct (main_loop_cons _ _ _ _ _ _ Hloop) as (st1 & Hturn & Hrest & Hout).
    cbv zeta. rewrite Hout. simpl trigger_times. destruct (button i) eqn:Hb.
    + destruct (main_turn_pressed C fuel st i Hb) as [_ Hok].
      destruct (Hok st1 Hturn) as (Hlt & Hp & _ & Hnext).
      destruct (Hnext ltac:(lia)) as [Htot Hav].
      destruct (IH st1 st' ltac:(lia) Hrest) as (IH1 & IH2 & IH3 & IH4).
      rewrite averages_app, Hav.
      split; [simpl length; lia |].
      split; [simpl; rewrite IH2, Htot; reflexivity |].
      split; [simpl; rewrite IH3; reflexivity |].
      intros [|j] e Hj.
      * simpl in Hj. inversion Hj. subst e. simpl.
        change (Z.of_nat 0) with 0. rewrite Z.add_0_r. reflexivity.
      * simpl in Hj. simpl nth_error. rewrite (IH4 j e Hj).
        rewrite Hp, Htot. simpl firstn. simpl fold_left.
        replace (passcount st + 1 + 1 + Z.of_nat j)
          with (passcount st + 1 + Z.of_nat (S j)) by lia.
        reflexivity.
    + rewrite (main_turn_idle C fuel st i Hb) in Hturn |- *.
      inversion Hturn. subst st1. simpl app.
      apply (IH st st' Hk Hrest).
Qed.

Lemma float_sum_cons (junk e : spec_float) (rest : list spec_float) :
  float_sum junk (e :: rest) = fold_left Single.add rest e.
Proof. reflexivity. Qed.

(** From the start of the program. *)
Lemma main_loop_reports (C : Z) (fuel : nat) (junk1 junk2 : spec_float)
      (inputs : list turn_input) (st : main_state) :
  outcome (main_loop C fuel (main_start junk1 junk2) inputs) = Ok st ->
  let es := trigger_times inputs in
  let out := printed (main_loop C fuel (main_start junk1 junk2) inputs) in
  passcount st = Z.of_nat (length es) /\
  total_runs st = float_sum junk2 es /\
  length (averages out) = Nat.pred (length es) /\
  forall k e, (2 <= k)%nat -> nth_error es (k - 1) = Some e ->
    nth_error (averages out) (k - 2) =
      Some (e, Z.of_nat k,
            Single.div (float_sum junk2 (firstn k es)) (Single.of_Z (Z.of_nat k))).
Proof.
  induction inputs as [|i rest IH]; intros Hloop.
  - simpl in Hloop. inversion Hloop. subst. simpl.
    split; [reflexivity |]. split; [reflexivity |]. split; [reflexivity |].
    intros k e Hk H. destruct (k - 1)%nat; discriminate.
  - destruct (main_loop_cons _ _ _ _ _ _ Hloop) as (st1 & Hturn & Hrest & Hout).
    cbv zeta. rewrite Hout. simpl trigger_times. destruct (button i) eqn:Hb.
    + destruct (main_turn_pressed C fuel (main_start junk1 junk2) i Hb) as [_ Hok].
      destruct (Hok st1 Hturn) as (_ & Hp & Hfirst & _).
      simpl passcount in Hp, Hfirst. destruct (Hfirst eq_refl) as [Htot Hav].
      destruct (main_loop_averages C fuel rest st1 st ltac:(lia) Hrest)
        as (H1 & H2 & H3 & H4).
      cbv zeta in H3, H4.
      rewrite averages_app, Hav. simpl app.
      split; [simpl length; lia |].
      split; [rewrite float_sum_cons, H2, Htot; reflexivity |].
      split; [simpl; exact H3 |].
      intros k e Hk Hnth.
      destruct k as [|[|k]]; try lia.
      replace (S (S k) - 1)%nat with (S k) in Hnth by lia.
      replace (S (S k) - 2)%nat with k by lia.
      simpl in Hnth. rewrite (H4 k e Hnth).
      rewrite Hp, Htot. simpl firstn. rewrite float_sum_cons.
      replace (0 + 1 + 1 + Z.of_nat k) with (Z.of_nat (S (S k))) by lia.
      reflexivity.
    + rewrite (main_turn_idle C fuel _ i Hb) in Hturn |- *.
      inversion Hturn. subst st1. simpl app.
      apply (IH Hrest).
Qed.

(** With fuel for [primer], the loop completes every turn as long as the
    pass count fits in an [int]. *)
Lemma main_loop_total (C : Z) :
  3 < C < 2 ^ 32 ->
  exists fuel0, forall fuel, (fuel0 <= fuel)%nat ->
    forall inputs st,
      0 <= passcount st ->
      passcount st + Z.of_nat (length (trigger_times inputs)) <= INT_MAX ->
      exists st', outcome (main_loop C fuel st inputs) = Ok st'.
Proof.
  intros HC. destruct (generate_total C HC) as (s & n & fuel0 & Hgen & _ & _).
  exists fuel0. intros fuel Hfuel.
  induction inputs as [|i rest IH]; intros st H0 Hmax.
  - exists st. reflexivity.
  - simpl in Hmax. simpl main_loop. unfold main_turn, primer.
    unfold mbind, io_bind, mret, io_ret, printf, run.
    destruct (button i) eqn:Hb.
    + simpl length in Hmax.
      destruct (Z.ltb_spec (passcount st) INT_MAX); [|lia]. simpl.
      rewrite Hgen by exact Hfuel.
      destruct (passcount st + 1 =? 1); simpl;
        match goal with
        | |- context [main_loop C fuel ?st1 rest] =>
            destruct (IH st1) as (st' & ->); [simpl; lia | simpl; lia |]
        end; eexists; reflexivity.
    + simpl. destruct (IH st H0 Hmax) as (st' & ->). eexists. reflexivity.
Qed.

(** The divisor of every average printed is a pass count of 2 or more. *)
Lemma averages_divisor (C : Z) (fuel : nat) (inputs : list turn_input) :
  forall st, 0 <= passcount st ->
    forall t p a, In (t, p, a) (averages (printed (main_loop C fuel st inputs))) ->
      2 <= p <= INT_MAX /\ positive_float (Single.of_Z p) = true /\
      exists total, a = Single.div total (Single.of_Z p).
Proof.
  induction inputs as [|i rest IH]; intros st H0 t p a Hin; [contradiction Hin |].
  assert (Hturn : forall x, In x (averages (printed (main_turn C fuel st i))) ->
            x = (elapsed (start_us i) (stop_us i), passcount st + 1,
                 Single.div (Single.add (total_runs st) (elapsed (start_us i) (stop_us i)))
                            (Single.of_Z (passcount st + 1))) /\
            passcount st <> 0 /\ passcount st < INT_MAX).
  { intros x Hx. destruct (button i) eqn:Hb.
    - destruct (main_turn_pressed C fuel st i Hb) as [[Hnone | (Hnz & Hlt & Hone)] _].
      + rewrite Hnone in Hx. destruct Hx.
      + rewrite Hone in Hx. destruct Hx as [<- | []]. auto.
    - rewrite (main_turn_idle C fuel st i Hb) in Hx. destruct Hx. }
  assert (Hhere : In (t, p, a) (averages (printed (main_turn C fuel st i))) ->
            2 <= p <= INT_MAX /\ positive_float (Single.of_Z p) = true /\
            exists total, a = Single.div total (Single.of_Z p)).
  { intros Hx. destruct (Hturn _ Hx) as (Heq & Hnz & Hlt). inversion Heq. subst.
    split; [lia |]. split; [apply single_of_Z_positive; lia |].
    eexists. reflexivity. }
  simpl in Hin. unfold mbind, io_bind in Hin.
  destruct (outcome (main_turn C fuel st i)) as [st1 | |] eqn:Hout; simpl in Hin;
    try (apply Hhere; exact Hin).
  rewrite averages_app in Hin. apply in_app_or in Hin.
  destruct Hin as [Hin | Hin]; [apply Hhere; exact Hin |].
  refine (IH st1 _ t p a Hin).
  destruct (button i) eqn:Hb.
  - destruct (main_turn_pressed C fuel st i Hb) as [_ Hok].
    destruct (Hok st1 Hout) as (_ & Hp & _). lia.
  - rewrite (main_turn_idle C fuel st i Hb) in Hout. inversion Hout. subst. exact H0.
Qed.

Lemma trigger_times_nonnegative (inputs : list turn_input) (e : spec_float) :
  In e (trigger_times inputs) -> nonnegative e = true.
Proof.
  induction inputs as [|i rest IH]; simpl; [tauto |].
  destruct (button i); [|exact IH].
  intros [<- | H]; [apply elapsed_nonnegative | apply IH, H].
Qed.

(** The lines of a first trigger, at any capacity: the free heap, the
    last prime and the runtime. *)
Lemma first_trigger (C : Z) :
  3 < C < 2 ^ 32 ->
  exists fuel p, forall junk1 junk2 h g t0 t1,
    main_loop C fuel (main_start junk1 junk2) [mkInput true h g t0 t1] =
      mkIO [FreeHeap h; LastPrime p; Runtime (elapsed t0 t1)]
           (Ok (mkMain 1 (elapsed t0 t1) (elapsed t0 t1))).
Proof.
  intros HC. destruct (generate_total C HC) as (s & n & fuel0 & Hgen & _ & _).
  exists fuel0, (candidate s). intros junk1 junk2 h g t0 t1.
  unfold main_loop, main_turn, primer.
  unfold mbind, io_bind, mret, io_ret, printf, run. simpl.
  rewrite Hgen by lia. reflexivity.
Qed.

(** C7 as stated fails at [k = 1]: at the reference capacity the report
    of the first trigger, here one of 2.5 s, holds the free heap, the
    last prime and the runtime, and no average. *)
Lemma first_report_has_no_average :
  exists fuel p,
    printed (main_loop 60000 fuel (main_start S754_nan S754_nan)
               [mkInput true 0 zero_stack 0 2500000]) =
      [FreeHeap 0; LastPrime p; Runtime (S754_finite false 10485760 (-22))] /\
    averages (printed (main_loop 60000 fuel (main_start S754_nan S754_nan)
                         [mkInput true 0 zero_stack 0 2500000])) = [].
Proof.
  destruct (first_trigger 60000 ltac:(lia)) as (fuel & p & H).
  exists fuel, p. rewrite H. split; vm_compute; reflexivity.
Qed.

(** C7, amended.  With fuel for [primer] and as long as the pass count
    fits in an [int], every turn completes; the pass count is the number
    of triggers; every time measured is a number not below zero; the
    first trigger prints no average and sets the total to its time; for
    every [k >= 2] the [k]-th trigger prints its time, the pass count [k]
    and, as average, the sum of the first [k] times divided by [k], sum
    and quotient being computed in single precision in the order of the
    triggers. *)
Theorem running_average_reported (C : Z) :
  3 < C < 2 ^ 32 ->
  exists fuel0, forall fuel junk1 junk2 inputs,
    (fuel0 <= fuel)%nat ->
    Z.of_nat (length (trigger_times inputs)) <= INT_MAX ->
    exists st,
      outcome (main_loop C fuel (main_start junk1 junk2) inputs) = Ok st /\
      passcount st = Z.of_nat (length (trigger_times inputs)) /\
      total_runs st = float_sum junk2 (trigger_times inputs) /\
      (forall e, In e (trigger_times inputs) -> nonnegative e = true) /\
      length (averages (printed (main_loop C fuel (main_start junk1 junk2) inputs))) =
        Nat.pred (length (trigger_times inputs)) /\
      forall k e, (2 <= k)%nat -> nth_error (trigger_times inputs) (k - 1) = Some e ->
        nth_error
          (averages (printed (main_loop C fuel (main_start junk1 junk2) inputs)))
          (k - 2) =
          Some (e, Z.of_nat k,
                Single.div (float_sum junk2 (firstn k (trigger_times inputs)))
                           (Single.of_Z (Z.of_nat k))).
Proof.
  intros HC. destruct (main_loop_total C HC) as (fuel0 & Htotal).
  exists fuel0. intros fuel junk1 junk2 inputs Hfuel Hmax.
  destruct (Htotal fuel Hfuel inputs (main_start junk1 junk2)) as (st & Hloop);
    [simpl; lia | simpl; lia |].
  exists st. split; [exact Hloop |].
  destruct (main_loop_reports C fuel junk1 junk2 inputs st Hloop) as (H1 & H2 & H3 & H4).
  split; [exact H1 |]. split; [exact H2 |].
  split; [apply trigger_times_nonnegative |]. split; [exact H3 | exact H4].
Qed.

Lemma running_average_reported_witness :
  3 < 60000 < 2 ^ 32 /\
  exists fuel0, forall fuel junk1 junk2 inputs,
    (fuel0 <= fuel)%nat ->
    Z.of_nat (length (trigger_times inputs)) <= INT_MAX ->
    exists st,
      outcome (main_loop 60000 fuel (main_start junk1 junk2) inputs) = Ok st /\
      passcount st = Z.of_nat (length (trigger_times inputs)) /\
      total_runs st = float_sum junk2 (trigger_times inputs) /\
      (forall e, In e (trigger_times inputs) -> nonnegative e = true) /\
      length (averages (printed (main_loop 60000 fuel (main_start junk1 junk2) inputs))) =
        Nat.pred (length (trigger_times inputs)) /\
      forall k e, (2 <= k)%nat -> nth_error (trigger_times inputs) (k - 1) = Some e ->
        nth_error
          (averages (printed (main_loop 60000 fuel (main_start junk1 junk2) inputs)))
          (k - 2) =
          Some (e, Z.of_nat k,
                Single.div (float_sum junk2 (firstn k (trigger_times inputs)))
                           (Single.of_Z (Z.of_nat k))).
Proof.
  split; [lia | apply (running_average_reported 60000); lia].
Defined.

Lemma elapsed_seconds (t n : Z) (x : spec_float) :
  Single.of_double (Double.div (Double.of_Z (wrap64 n)) (Double.of_Z 1000000)) = x ->
  elapsed t (t + n) = x.
Proof.
  intros H. unfold elapsed. replace (t + n - t) with n by lia. exact H.
Qed.

(** C8 as stated fails: at the reference capacity the report of a first
    trigger of 1.000 s states the runtime and neither a pass count nor an
    average. *)
Lemma first_report_states_no_pass_count :
  exists fuel p,
    printed (main_loop 60000 fuel (main_start S754_nan S754_nan)
               [mkInput true 0 zero_stack 0 1000000]) =
      [FreeHeap 0; LastPrime p; Runtime (Single.of_Z 1)] /\
    ~ exists t n a,
        In (RuntimePassAverage t n a)
           (printed (main_loop 60000 fuel (main_start S754_nan S754_nan)
                       [mkInput true 0 zero_stack 0 1000000])).
Proof.
  destruct (first_trigger 60000 ltac:(lia)) as (fuel & p & H).
  exists fuel, p. rewrite H. split; [vm_compute; reflexivity |].
  intros (t & n & a & Hin). apply in_averages in Hin. exact Hin.
Qed.

(** C8, amended.  Two triggers in a row that measure 1.000 s and 3.000 s:
    the first report is the free heap, the last prime and the runtime
    1.000, without pass count or average; the second report is the
    runtime 3.000, the pass count 2 and the average 2.000. *)
Theorem two_triggers_report (C : Z) :
  3 < C < 2 ^ 32 ->
  exists fuel0 p, forall fuel junk1 junk2 heap1 heap2 stack1 stack2 t1 t2,
    (fuel0 <= fuel)%nat ->
    main_loop C fuel (main_start junk1 junk2)
      [mkInput true heap1 stack1 t1 (t1 + 1000000);
       mkInput true heap2 stack2 t2 (t2 + 3000000)] =
    mkIO [FreeHeap heap1; LastPrime p; Runtime (Single.of_Z 1);
          RuntimePassAverage (Single.of_Z 3) 2 (Single.of_Z 2)]
         (Ok (mkMain 2 (Single.of_Z 3) (Single.of_Z 4))).
Proof.
  intros HC. destruct (generate_total C HC) as (s & n & fuel0 & Hgen & _ & _).
  exists fuel0, (candidate s).
  intros fuel junk1 junk2 heap1 heap2 stack1 stack2 t1 t2 Hfuel.
  unfold main_loop, main_turn, primer.
  unfold mbind, io_bind, mret, io_ret, printf, run. simpl.
  rewrite !Hgen by exact Hfuel. simpl.
  rewrite (elapsed_seconds t1 1000000 (Single.of_Z 1)) by (vm_compute; reflexivity).
  rewrite (elapsed_seconds t2 3000000 (Single.of_Z 3)) by (vm_compute; reflexivity).
  reflexivity.
Qed.

Lemma two_triggers_report_witness :
  3 < 60000 < 2 ^ 32 /\
  exists fuel0 p, forall fuel junk1 junk2 heap1 heap2 stack1 stack2 t1 t2,
    (fuel0 <= fuel)%nat ->
    main_loop 60000 fuel (main_start junk1 junk2)
      [mkInput true heap1 stack1 t1 (t1 + 1000000);
       mkInput true heap2 stack2 t2 (t2 + 3000000)] =
    mkIO [FreeHeap heap1; LastPrime p; Runtime (Single.of_Z 1);
          RuntimePassAverage (Single.of_Z 3) 2 (Single.of_Z 2)]
         (Ok (mkMain 2 (Single.of_Z 3) (Single.of_Z 4))).
Proof.
  split; [lia | apply (two_triggers_report 60000); lia].
Defined.

(** C10.  Whatever the turns and whether or not the run completes, every
    line that carries an average was printed with a pass count between 2
    and [INT_MAX], and its average is a quotient by that pass count
    converted to [float], a number above zero: the division is never one
    by zero. *)
Theorem average_divisor_is_positive (C : Z) (fuel : nat) (junk1 junk2 : spec_float)
        (inputs : list turn_input) (t : spec_float) (p : Z) (a : spec_float) :
  In (RuntimePassAverage t p a)
     (printed (main_loop C fuel (main_start junk1 junk2) inputs)) ->
  2 <= p <= INT_MAX /\ positive_float (Single.of_Z p) = true /\
  exists total, a = Single.div total (Single.of_Z p).
Proof.
  intros H. apply in_averages in H.
  apply (averages_divisor C fuel inputs (main_start junk1 junk2) ltac:(simpl; lia) t p a H).
Qed.

Lemma average_divisor_is_positive_witness :
  In (RuntimePassAverage (Single.of_Z 3) 2 (Single.of_Z 2))
     (printed (main_loop 4 10 (main_start S754_nan S754_nan)
                 [mkInput true 0 zero_stack 0 1000000;
                  mkInput true 0 zero_stack 0 3000000])) /\
  (2 <= 2 <= INT_MAX /\ positive_float (Single.of_Z 2) = true /\
   exists total, Single.of_Z 2 = Single.div total (Single.of_Z 2)).
Proof.
  assert (H : In (RuntimePassAverage (Single.of_Z 3) 2 (Single.of_Z 2))
                (printed (main_loop 4 10 (main_start S754_nan S754_nan)
                            [mkInput true 0 zero_stack 0 1000000;
                             mkInput true 0 zero_stack 0 3000000]))).
  { vm_compute. right. right. right. left. reflexivity. }
  split; [exact H |].
  exact (average_divisor_is_positive 4 10 S754_nan S754_nan _ _ _ _ H).
Defined.

End TrialRunner.

(** * The generator, turn by turn *)

Section Runs.

(** A result other than "out of fuel" is kept when fuel is added. *)
Lemma scan_fuel_stable (g : Z -> Z) (m : gmap Z Z) (c st : Z) (f f' : nat) :
  forall k r, scan g f m c st k = r -> r <> OutOfFuel -> (f <= f')%nat ->
              scan g f' m c st k = r.
Proof.
  revert f'. induction f as [|f IH]; intros f' k r H Hr Hle; [simpl in H; congruence |].
  destruct f' as [|f']; [lia |].
  simpl in *. destruct (read g m k <=? st); [|exact H].
  destruct (read g m k =? 0); [exact H |].
  destruct (c mod read g m k =? 0); [exact H |].
  apply IH; [exact H | exact Hr | lia].
Qed.

Lemma body_fuel_stable (g : Z -> Z) (f f' : nat) (s : state) (r : result state) :
  body g f s = r -> r <> OutOfFuel -> (f <= f')%nat -> body g f' s = r.
Proof.
  unfold body. intros H Hr Hle.
  destruct (searchto_of (wrap32 (candidate s + 2))) as [st | |]; try exact H.
  simpl in *.
  destruct (scan g f (primes s) (wrap32 (candidate s + 2)) st 1) as [x | |] eqn:E;
    simpl in H; try congruence.
  - rewrite (scan_fuel_stable _ _ _ _ _ _ _ _ E ltac:(discriminate) Hle). exact H.
  - rewrite (scan_fuel_stable _ _ _ _ _ _ _ _ E ltac:(discriminate) Hle). exact H.
Qed.

Lemma loop_fuel_stable (g : Z -> Z) (C : Z) (f f' : nat) :
  forall s r, loop g C f s = r -> r <> OutOfFuel -> (f <= f')%nat ->
              loop g C f' s = r.
Proof.
  revert f'. induction f as [|f IH]; intros f' s r H Hr Hle; [simpl in H; congruence |].
  destruct f' as [|f']; [lia |].
  simpl in *. destruct (index s <? C); [|exact H].
  destruct (body g f s) as [s1 | |] eqn:E; simpl in H; try congruence.
  - rewrite (body_fuel_stable g f f' s _ E ltac:(discriminate) ltac:(lia)).
    simpl. apply IH; [exact H | exact Hr | lia].
  - rewrite (body_fuel_stable g f f' s _ E ltac:(discriminate) ltac:(lia)).
    exact H.
Qed.

(** The state a turn leaves does not depend on the fuel or on the
    stack. *)
Lemma turn_unique (C : Z) (s : state) :
  wellformed C s -> regime s -> index s < C -> C < 2 ^ 32 ->
  exists b cnt,
    (forall g fuel s', body g fuel s = Ok s' -> s' = next b s) /\
    1 <= cnt <= index s /\
    scanned (primes s) (wrap32 (candidate s + 2))
            (Z.sqrt (wrap32 (candidate s + 2))) b cnt.
Proof.
  intros Hwf Hreg Hlt HC.
  destruct (turn_scan C s Hwf Hreg Hlt HC) as (b & cnt & Hscan & Hcnt & Hsc).
  exists b, cnt. split; [|split; assumption].
  intros g fuel s' Hbody.
  pose proof (wf_index _ _ Hwf).
  pose proof (body_fuel_mono g fuel (Nat.max fuel (Z.to_nat (index s))) s s' Hbody
                ltac:(lia)) as H1.
  rewrite (body_next g _ s b cnt) in H1; [congruence | lia | lia |].
  apply Hscan. lia.
Qed.

(** After a given number of turns there is one state only. *)
Lemma reach_unique (C : Z) (g1 g2 : Z -> Z) (n : nat) (s1 : state) :
  3 < C < 2 ^ 32 -> reach g1 C n s1 ->
  forall s2, reach g2 C n s2 -> s1 = s2.
Proof.
  intros HC Hr1. induction Hr1 as [|n s s' fuel Hr IH Hlt Hbody]; intros s2 Hr2.
  - inversion Hr2. apply seeded_stack.
  - inversion Hr2 as [|n' t t' fuel' Hrt Hlt' Hbody' Hn Ht]. subst.
    rewrite <- (IH t Hrt) in *.
    destruct (reach_wellformed g1 C n s HC Hr) as [Hwf Hreg].
    destruct (turn_unique C s Hwf Hreg Hlt ltac:(lia)) as (b & cnt & Hu & _).
    rewrite (Hu g1 fuel s' Hbody), (Hu g2 fuel' s2 Hbody'). reflexivity.
Qed.

(** The turn that leads to a state. *)
Lemma reach_last_turn (C : Z) (g : Z -> Z) (n : nat) (s' : state) :
  3 < C < 2 ^ 32 -> reach g C (S n) s' ->
  exists s b cnt,
    reach g C n s /\ index s < C /\ s' = next b s /\ 1 <= cnt <= index s /\
    scanned (primes s) (wrap32 (candidate s + 2))
            (Z.sqrt (wrap32 (candidate s + 2))) b cnt.
Proof.
  intros HC Hr. inversion Hr as [|n' s t fuel Hrs Hlt Hbody Hn Ht]. subst.
  destruct (reach_wellformed g C n s HC Hrs) as [Hwf Hreg].
  destruct (turn_next C g fuel s s' Hwf Hreg Hlt ltac:(lia) Hbody)
    as (b & cnt & -> & Hcnt & Hsc).
  exists s, b, cnt. auto.
Qed.

(** Later states extend earlier ones. *)
Lemma reach_extends (C : Z) (g : Z -> Z) (n : nat) (s : state) :
  3 < C < 2 ^ 32 -> reach g C n s ->
  forall k s', reach g C (k + n) s' ->
    index s <= index s' /\
    forall i p, primes s !! i = Some p -> primes s' !! i = Some p.
Proof.
  intros HC Hr. induction k as [|k IH]; intros s' Hr'.
  - simpl in Hr'. rewrite (reach_unique C g g n s HC Hr s' Hr'). split; [lia | auto].
  - simpl in Hr'.
    destruct (reach_last_turn C g (k + n) s' HC Hr') as (t & b & cnt & Hrt & _ & -> & _).
    destruct (IH t Hrt) as [Hi Hc].
    destruct (reach_wellformed g C (k + n) t HC Hrt) as [Hwf _].
    split; [rewrite next_index; destruct b; lia |].
    intros i p Hp. apply (next_keeps b t i p (wf_filled _ _ Hwf)), Hc, Hp.
Qed.

(** X1.  Written once.  A cell that has been written keeps its value for
    the rest of the call and [index] never goes down; the seeds 2, 3, 5,
    7 stay in the cells 0 to 3. *)
Theorem cells_are_written_once (g : Z -> Z) (C : Z) (n k : nat) (s s' : state) :
  3 < C < 2 ^ 32 -> reach g C n s -> reach g C (k + n) s' ->
  index s <= index s' /\
  (forall i p, primes s !! i = Some p -> primes s' !! i = Some p) /\
  primes s' !! 0 = Some 2 /\ primes s' !! 1 = Some 3 /\
  primes s' !! 2 = Some 5 /\ primes s' !! 3 = Some 7.
Proof.
  intros HC Hr Hr'.
  destruct (reach_extends C g n s HC Hr k s' Hr') as [Hi Hc].
  split; [exact Hi |]. split; [exact Hc |].
  assert (H0 : reach g C (k + n + 0) s') by (rewrite Nat.add_0_r; exact Hr').
  destruct (reach_extends C g 0 (seeded g) HC (reach_seeded g C) (k + n) s' H0) as [_ Hs].
  repeat split; apply Hs; rewrite seeded_cells; reflexivity.
Qed.

Lemma reach_values (C : Z) (g : Z -> Z) (n : nat) (s : state) :
  3 < C < 2 ^ 32 -> reach g C n s ->
  forall i p, primes s !! i = Some p -> 0 < p < 2 ^ 32.
Proof.
  intros HC Hr. induction Hr as [|n s s' fuel Hr IH Hlt Hbody]; intros i p Hp.
  - rewrite seeded_cells in Hp. repeat case_decide; simplify_eq; lia.
  - destruct (reach_wellformed g C n s HC Hr) as [Hwf Hreg].
    destruct (turn_next C g fuel s s' Hwf Hreg Hlt ltac:(lia) Hbody)
      as (b & cnt & -> & _ & _).
    destruct (next_cells b s i p (wf_filled _ _ Hwf) Hp) as [Hold | (_ & _ & ->)].
    + apply (IH i p Hold).
    + pose proof (wellformed_next C s b Hwf Hlt) as Hwf'.
      pose proof (wf_candidate _ _ Hwf') as Hc. destruct (wf_odd _ _ Hwf') as [h Hh].
      rewrite next_candidate in Hc, Hh. lia.
Qed.

(** X2.  The stores stay within [primes[0..PRIMECOUNT]].  At every turn
    the cells written are those from 0 to [index], [index] is at most
    [PRIMECOUNT], and every value stored is a non-zero [uint32_t]: the
    one cell past the array is the only one written outside it. *)
Theorem stores_go_at_most_one_past_the_array (g : Z -> Z) (C : Z) (n : nat) (s : state) :
  3 < C < 2 ^ 32 -> reach g C n s ->
  3 <= index s <= C /\
  (forall i, is_Some (primes s !! i) <-> 0 <= i <= index s) /\
  (forall i p, primes s !! i = Some p -> 0 <= i <= C /\ 0 < p < 2 ^ 32).
Proof.
  intros HC Hr. destruct (reach_wellformed g C n s HC Hr) as [Hwf _].
  pose proof (wf_index _ _ Hwf) as Hi.
  split; [exact Hi |]. split; [apply (wf_filled _ _ Hwf) |].
  intros i p Hp. split; [|apply (reach_values C g n s HC Hr i p Hp)].
  assert (0 <= i <= index s) by (apply (wf_filled _ _ Hwf); eauto). lia.
Qed.

Lemma stores_go_at_most_one_past_the_array_witness :
  (3 < 10 < 2 ^ 32 /\ reach zero_stack 10 2 eleven_stored) /\
  3 <= index eleven_stored <= 10 /\
  (forall i, is_Some (primes eleven_stored !! i) <-> 0 <= i <= index eleven_stored) /\
  (forall i p, primes eleven_stored !! i = Some p -> 0 <= i <= 10 /\ 0 < p < 2 ^ 32).
Proof.
  assert (Hr : reach zero_stack 10 2 eleven_stored)
    by (apply eleven_stored_reached; reflexivity).
  split; [split; [lia | exact Hr] |].
  apply (stores_go_at_most_one_past_the_array zero_stack 10 2 eleven_stored); [lia | exact Hr].
Defined.

Lemma wrap32_add_2 (z : Z) : wrap32 (wrap32 z + 2) = wrap32 (z + 2).
Proof. unfold wrap32. apply Z.add_mod_idemp_l. lia. Qed.

(** X3.  The candidates.  After [n] turns the candidate is [7 + 2n] modulo
    [2^32]: every odd number from 9 on is tested in turn, no even number
    ever is, and [index] has gone up by at most one per turn. *)
Theorem candidate_after_turns (g : Z -> Z) (C : Z) (n : nat) (s : state) :
  3 < C < 2 ^ 32 -> reach g C n s ->
  candidate s = wrap32 (7 + 2 * Z.of_nat n) /\
  Z.odd (candidate s) = true /\
  3 <= index s <= 3 + Z.of_nat n.
Proof.
  intros HC Hr.
  assert (H : candidate s = wrap32 (7 + 2 * Z.of_nat n) /\ 3 <= index s <= 3 + Z.of_nat n).
  { induction Hr as [|n s s' fuel Hr IH Hlt Hbody].
    - split; [reflexivity | rewrite seeded_index; lia].
    - destruct (reach_wellformed g C n s HC Hr) as [Hwf Hreg].
      destruct (turn_next C g fuel s s' Hwf Hreg Hlt ltac:(lia) Hbody)
        as (b & cnt & -> & _ & _).
      destruct IH as [Hc Hi]. rewrite next_candidate, next_index, Hc, wrap32_add_2.
      split; [f_equal; lia | destruct b; lia]. }
  destruct H as [Hc Hi]. split; [exact Hc |]. split; [|exact Hi].
  destruct (reach_wellformed g C n s HC Hr) as [Hwf _].
  destruct (wf_odd _ _ Hwf) as [h ->].
  rewrite Z.add_comm, Z.odd_add_mul_2. reflexivity.
Qed.

Lemma candidate_after_turns_witness :
  (3 < 10 < 2 ^ 32 /\ reach zero_stack 10 2 eleven_stored) /\
  candidate eleven_stored = wrap32 (7 + 2 * Z.of_nat 2) /\
  Z.odd (candidate eleven_stored) = true /\
  3 <= index eleven_stored <= 3 + Z.of_nat 2.
Proof.
  assert (Hr : reach zero_stack 10 2 eleven_stored)
    by (apply eleven_stored_reached; reflexivity).
  split; [split; [lia | exact Hr] |].
  apply (candidate_after_turns zero_stack 10 2 eleven_stored); [lia | exact Hr].
Defined.

(** X4.  No remainder by zero.  Whatever the fuel and whatever the stack
    held, no turn takes a remainder by zero and the search limit always
    converts to a [uint32_t]: the call is never [Undefined]; short of fuel
    it is cut off, and otherwise it ends in one and the same state. *)
Theorem generate_never_divides_by_zero (C : Z) :
  3 < C < 2 ^ 32 ->
  exists s, forall g fuel,
    generate g C fuel = OutOfFuel \/ generate g C fuel = Ok s.
Proof.
  intros HC. destruct (generate_total C HC) as (s & n & fuel0 & Hgen & _ & _).
  exists s. intros g fuel.
  destruct (generate g C fuel) as [s1 | |] eqn:E; [right | exfalso | left; reflexivity].
  - pose proof (loop_fuel_stable g C fuel (Nat.max fuel fuel0) _ _ E
                  ltac:(discriminate) ltac:(lia)) as H.
    unfold generate in Hgen. rewrite Hgen in H by lia. congruence.
  - pose proof (loop_fuel_stable g C fuel (Nat.max fuel fuel0) _ _ E
                  ltac:(discriminate) ltac:(lia)) as H.
    unfold generate in Hgen. rewrite Hgen in H by lia. discriminate.
Qed.

Lemma generate_never_divides_by_zero_witness :
  3 < 60000 < 2 ^ 32 /\
  exists s, forall g fuel,
    generate g 60000 fuel = OutOfFuel \/ generate g 60000 fuel = Ok s.
Proof.
  split; [lia | apply (generate_never_divides_by_zero 60000); lia].
Defined.

Lemma cells_are_written_once_witness :
  (3 < 10 < 2 ^ 32 /\ reach zero_stack 10 0 (seeded zero_stack) /\
   reach zero_stack 10 (2 + 0) eleven_stored) /\
  index (seeded zero_stack) <= index eleven_stored /\
  (forall i p, primes (seeded zero_stack) !! i = Some p ->
               primes eleven_stored !! i = Some p) /\
  primes eleven_stored !! 0 = Some 2 /\ primes eleven_stored !! 1 = Some 3 /\
  primes eleven_stored !! 2 = Some 5 /\ primes eleven_stored !! 3 = Some 7.
Proof.
  assert (Hr : reach zero_stack 10 (2 + 0) eleven_stored)
    by (apply eleven_stored_reached; reflexivity).
  split; [split; [lia | split; [apply reach_seeded | exact Hr]] |].
  apply (cells_are_written_once zero_stack 10 0 2 (seeded zero_stack) eleven_stored);
    [lia | apply reach_seeded | exact Hr].
Defined.

(** X5.  Where the scan stops.  Before any wrap-around the scan divides the
    candidate [c] only by stored primes [q] with [q * q <= c], none of
    which divides it, and stops on a stored prime [p]: for a composite
    [c], on its smallest prime factor; for a prime [c], on the smallest
    prime with [p * p > c]. *)
Theorem scan_stops_at_the_least_factor (g : Z -> Z) (C : Z) (n : nat) (s : state) :
  3 < C < 2 ^ 32 -> reach g C n s -> index s < C ->
  7 + 2 * Z.of_nat (S n) < 2 ^ 32 ->
  exists b cnt p,
    (forall fuel, (Z.to_nat (index s) <= fuel)%nat ->
       scan g fuel (primes s) (candidate s + 2) (Z.sqrt (candidate s + 2)) 1
         = Ok (b, cnt)) /\
    primes s !! cnt = Some p /\ Z.prime p /\
    (forall i q, 1 <= i < cnt -> primes s !! i = Some q ->
                 q * q <= candidate s + 2 /\ ~ (q | candidate s + 2)) /\
    (if b
     then Z.prime (candidate s + 2) /\ candidate s + 2 < p * p /\
          (forall q, Z.prime q -> candidate s + 2 < q * q -> p <= q)
     else ~ Z.prime (candidate s + 2) /\ (p | candidate s + 2) /\
          p * p <= candidate s + 2 /\
          (forall q, Z.prime q -> (q | candidate s + 2) -> p <= q)).
Proof.
  intros HC Hr Hlt Hn.
  destruct (reach_wellformed g C n s HC Hr) as [Hwf Hreg].
  pose proof (reach_exact g C n s HC Hr ltac:(lia)) as Hex.
  pose proof (exact_candidate _ _ Hex) as Hc.
  pose proof (wf_filled _ _ Hwf) as Hfill.
  destruct (turn_scan C s Hwf Hreg Hlt ltac:(lia)) as (b & cnt & Hscan & Hcnt & Hsc).
  rewrite wrap32_small in Hscan, Hsc by lia.
  pose proof (exact_decides n s b cnt Hex Hfill Hcnt Hsc) as Hdec.
  destruct Hsc as (p & Hp & Hbefore & Hend).
  destruct (exact_sound _ _ Hex cnt p Hp) as [Hprime Hple].
  pose proof (Z.prime_ge_2 p Hprime) as Hp2.
  set (c := candidate s + 2) in *.
  assert (Hc9 : 9 <= c) by (unfold c; lia).
  assert (Hst : 3 <= Z.sqrt c) by (apply Z.sqrt_le_square; lia).
  (* a stored prime other than 2 that is below [p] was passed by the scan *)
  assert (Hpassed : forall q, Z.prime q -> q <> 2 -> q < p ->
            q <= Z.sqrt c /\ c mod q <> 0).
  { intros q Hq Hq2 Hqp.
    destruct (exact_complete _ _ Hex q Hq ltac:(lia)) as (i & Hi).
    assert (0 <= i <= index s) by (apply Hfill; eauto).
    assert (i <> 0).
    { intros ->. rewrite (exact_two _ _ Hex) in Hi. inversion Hi. lia. }
    assert (i < cnt).
    { destruct (Z_lt_le_dec i cnt) as [|Hge]; [assumption |].
      destruct (Z.eq_dec i cnt) as [-> |].
      - rewrite Hp in Hi. inversion Hi. lia.
      - pose proof (exact_increasing _ _ Hex cnt i p q Hp Hi ltac:(lia)). lia. }
    apply (Hbefore i q); [lia | exact Hi]. }
  exists b, cnt, p. split; [apply Hscan |]. split; [exact Hp |].
  split; [exact Hprime |]. split.
  - intros i q Hi Hq. destruct (Hbefore i q Hi Hq) as [Hle Hmod].
    destruct (exact_sound _ _ Hex i q Hq) as [Hqp _].
    pose proof (Z.prime_ge_2 q Hqp).
    split; [apply Z.sqrt_le_square; lia |].
    intros Hdiv. apply Hmod. apply Z.mod_divide; [lia | exact Hdiv].
  - destruct b.
    + split; [apply Hdec; reflexivity |].
      split; [apply Z.sqrt_lt_square; lia |].
      intros q Hq Hqq. pose proof (Z.prime_ge_2 q Hq).
      assert (Z.sqrt c < q) by (apply Z.sqrt_lt_square; lia).
      destruct (Z_le_gt_dec p q); [assumption |].
      destruct (Hpassed q Hq ltac:(lia) ltac:(lia)). lia.
    + destruct Hend as [Hle Hmod].
      split; [intros H; apply Hdec in H; discriminate |].
      split; [apply Z.mod_divide; [lia | exact Hmod] |].
      split; [apply Z.sqrt_le_square; lia |].
      intros q Hq Hdiv. pose proof (Z.prime_ge_2 q Hq).
      destruct (Z_le_gt_dec p q); [assumption |].
      destruct (Z.eq_dec q 2) as [-> | Hne].
      * exfalso. apply (odd_not_divisible_by_2 (Z.of_nat n + 4)).
        replace (2 * (Z.of_nat n + 4) + 1) with c by (unfold c; lia). exact Hdiv.
      * destruct (Hpassed q Hq Hne ltac:(lia)) as [_ Hm].
        exfalso. apply Hm. apply Z.mod_divide; [lia | exact Hdiv].
Qed.

Lemma scan_stops_at_the_least_factor_witness :
  (3 < 10 < 2 ^ 32 /\ reach zero_stack 10 2 eleven_stored /\
   index eleven_stored < 10 /\ 7 + 2 * Z.of_nat 3 < 2 ^ 32) /\
  exists b cnt p,
    (forall fuel, (Z.to_nat (index eleven_stored) <= fuel)%nat ->
       scan zero_stack fuel (primes eleven_stored) (candidate eleven_stored + 2)
            (Z.sqrt (candidate eleven_stored + 2)) 1 = Ok (b, cnt)) /\
    primes eleven_stored !! cnt = Some p /\ Z.prime p /\
    (forall i q, 1 <= i < cnt -> primes eleven_stored !! i = Some q ->
                 q * q <= candidate eleven_stored + 2 /\
                 ~ (q | candidate eleven_stored + 2)) /\
    (if b
     then Z.prime (candidate eleven_stored + 2) /\
          candidate eleven_stored + 2 < p * p /\
          (forall q, Z.prime q -> candidate eleven_stored + 2 < q * q -> p <= q)
     else ~ Z.prime (candidate eleven_stored + 2) /\
          (p | candidate eleven_stored + 2) /\
          p * p <= candidate eleven_stored + 2 /\
          (forall q, Z.prime q -> (q | candidate eleven_stored + 2) -> p <= q)).
Proof.
  assert (Hr : reach zero_stack 10 2 eleven_stored)
    by (apply eleven_stored_reached; reflexivity).
  split; [split; [lia | split; [exact Hr | split; [reflexivity | lia]]] |].
  apply (scan_stops_at_the_least_factor zero_stack 10 2 eleven_stored);
    [lia | exact Hr | reflexivity | lia].
Defined.

(** X6.  The verdict of a turn.  Before any wrap-around a turn adds 2 to the
    candidate and stores it in the next free cell exactly when it is
    prime; a composite candidate leaves the buffer and [index] as they
    were. *)
Theorem turn_stores_exactly_the_primes (g : Z -> Z) (C : Z) (n : nat) (s s' : state) :
  3 < C < 2 ^ 32 -> reach g C n s -> reach g C (S n) s' ->
  7 + 2 * Z.of_nat (S n) < 2 ^ 32 ->
  candidate s' = candidate s + 2 /\
  ((Z.prime (candidate s') /\ index s' = index s + 1 /\
    primes s' = <[index s + 1 := candidate s']> (primes s)) \/
   (~ Z.prime (candidate s') /\ index s' = index s /\ primes s' = primes s)).
Proof.
  intros HC Hr Hr' Hn.
  destruct (reach_last_turn C g n s' HC Hr') as (t & b & cnt & Hrt & Hlt & -> & Hcnt & Hsc).
  rewrite <- (reach_unique C g g n s HC Hr t Hrt) in *. clear t Hrt.
  destruct (reach_wellformed g C n s HC Hr) as [Hwf _].
  pose proof (reach_exact g C n s HC Hr ltac:(lia)) as Hex.
  pose proof (exact_candidate _ _ Hex) as Hc.
  rewrite wrap32_small in Hsc by lia.
  pose proof (exact_decides n s b cnt Hex (wf_filled _ _ Hwf) Hcnt Hsc) as Hdec.
  rewrite next_candidate, next_index, next_primes, wrap32_small by lia.
  split; [reflexivity |].
  destruct b.
  - left. split; [apply Hdec; reflexivity | split; reflexivity].
  - right. split; [|split; reflexivity].
    intros H. apply Hdec in H. discriminate.
Qed.

Lemma nine_rejected_reached (C : Z) :
  3 < C -> reach zero_stack C 1 (next false (seeded zero_stack)).
Proof.
  intros HC.
  apply (reach_turn zero_stack C 0 (seeded zero_stack) _ 5);
    [apply reach_seeded | exact HC | vm_compute; reflexivity].
Defined.

Lemma turn_stores_exactly_the_primes_witness :
  (3 < 10 < 2 ^ 32 /\ reach zero_stack 10 1 (next false (seeded zero_stack)) /\
   reach zero_stack 10 2 eleven_stored /\ 7 + 2 * Z.of_nat 2 < 2 ^ 32) /\
  candidate eleven_stored = candidate (next false (seeded zero_stack)) + 2 /\
  ((Z.prime (candidate eleven_stored) /\
    index eleven_stored = index (next false (seeded zero_stack)) + 1 /\
    primes eleven_stored =
      <[index (next false (seeded zero_stack)) + 1 := candidate eleven_stored]>
        (primes (next false (seeded zero_stack)))) \/
   (~ Z.prime (candidate eleven_stored) /\
    index eleven_stored = index (next false (seeded zero_stack)) /\
    primes eleven_stored = primes (next false (seeded zero_stack)))).
Proof.
  assert (Hr1 : reach zero_stack 10 1 (next false (seeded zero_stack)))
    by (apply nine_rejected_reached; reflexivity).
  assert (Hr2 : reach zero_stack 10 2 eleven_stored)
    by (apply eleven_stored_reached; reflexivity).
  split; [split; [lia | split; [exact Hr1 | split; [exact Hr2 | lia]]] |].
  apply (turn_stores_exactly_the_primes zero_stack 10 1 _ eleven_stored);
    [lia | exact Hr1 | exact Hr2 | lia].
Defined.

(** X7.  The last prime.  When the loop is left before any wrap-around, the
    candidate it ends on, the value printed as "Last Prime", is the prime
    stored in [primes[PRIMECOUNT]], and the primes below it are exactly
    the values of the cells 0 to [PRIMECOUNT - 1], in increasing order:
    it is the prime number [PRIMECOUNT + 1], not the last of the first
    [PRIMECOUNT]. *)
Theorem last_prime_is_one_past_the_count (g : Z -> Z) (C : Z) (n : nat) (s : state) :
  3 < C < 2 ^ 32 -> reach g C n s -> index s = C ->
  7 + 2 * Z.of_nat n < 2 ^ 32 ->
  primes s !! C = Some (candidate s) /\ Z.prime (candidate s) /\
  (forall p, Z.prime p /\ p < candidate s <->
             exists i, 0 <= i < C /\ primes s !! i = Some p) /\
  (forall i j p q, 0 <= i < j -> j < C -> primes s !! i = Some p ->
                   primes s !! j = Some q -> p < q).
Proof.
  intros HC Hr Hidx Hn.
  destruct (reach_wellformed g C n s HC Hr) as [Hwf _].
  pose proof (reach_exact g C n s HC Hr Hn) as Hex.
  pose proof (last_store g C n s HC Hr Hidx) as Hlast.
  destruct (exact_sound _ _ Hex C _ Hlast) as [Hprime _].
  split; [exact Hlast |]. split; [exact Hprime |]. split.
  - intros p. split.
    + intros [Hp Hlt].
      destruct (exact_complete _ _ Hex p Hp ltac:(lia)) as (i & Hi).
      assert (0 <= i <= index s) by (apply (wf_filled _ _ Hwf); eauto).
      exists i. split; [|exact Hi].
      destruct (Z.eq_dec i C) as [-> |]; [|lia].
      rewrite Hlast in Hi. inversion Hi. lia.
    + intros (i & Hi & Hp).
      destruct (exact_sound _ _ Hex i p Hp) as [Hpp _].
      split; [exact Hpp |].
      apply (exact_increasing _ _ Hex i C p (candidate s) Hp Hlast). lia.
  - intros i j p q Hij Hj Hp Hq.
    apply (exact_increasing _ _ Hex i j p q Hp Hq). lia.
Qed.

Lemma last_prime_is_one_past_the_count_witness :
  (3 < 4 < 2 ^ 32 /\ reach zero_stack 4 2 eleven_stored /\
   index eleven_stored = 4 /\ 7 + 2 * Z.of_nat 2 < 2 ^ 32) /\
  primes eleven_stored !! 4 = Some (candidate eleven_stored) /\
  Z.prime (candidate eleven_stored) /\
  (forall p, Z.prime p /\ p < candidate eleven_stored <->
             exists i, 0 <= i < 4 /\ primes eleven_stored !! i = Some p) /\
  (forall i j p q, 0 <= i < j -> j < 4 -> primes eleven_stored !! i = Some p ->
                   primes eleven_stored !! j = Some q -> p < q).
Proof.
  assert (Hr : reach zero_stack 4 2 eleven_stored)
    by (apply eleven_stored_reached; reflexivity).
  split; [split; [lia | split; [exact Hr | split; [reflexivity | lia]]] |].
  apply (last_prime_is_one_past_the_count zero_stack 4 2 eleven_stored);
    [lia | exact Hr | reflexivity | lia].
Defined.

Lemma reach_capacity_mono (g : Z -> Z) (C C' : Z) (n : nat) (s : state) :
  C' <= C -> reach g C' n s -> reach g C n s.
Proof.
  intros HC Hr. induction Hr as [|n s s' fuel Hr IH Hlt Hbody].
  - apply reach_seeded.
  - apply (reach_turn g C n s s' fuel); [exact IH | lia | exact Hbody].
Qed.

Lemma reach_before (C : Z) (g : Z -> Z) (n : nat) :
  3 < C < 2 ^ 32 ->
  forall k s', reach g C (k + n) s' -> exists s, reach g C n s.
Proof.
  intros HC. induction k as [|k IH]; intros s' Hr.
  - exists s'. exact Hr.
  - simpl in Hr.
    destruct (reach_last_turn C g (k + n) s' HC Hr) as (t & _ & _ & Hrt & _).
    apply (IH t Hrt).
Qed.

(** No turn follows the one that brings [index] to [PRIMECOUNT]. *)
Lemma reach_ends (C : Z) (g : Z -> Z) (n m : nat) (s t : state) :
  3 < C < 2 ^ 32 -> reach g C n s -> index s = C -> reach g C m t -> (m <= n)%nat.
Proof.
  intros HC Hr Hidx Hrt.
  destruct (Nat.le_gt_cases m n) as [|Hgt]; [assumption | exfalso].
  replace m with ((m - S n) + S n)%nat in Hrt by lia.
  destruct (reach_before C g (S n) HC _ t Hrt) as (u & Hu).
  destruct (reach_last_turn C g n u HC Hu) as (s0 & _ & _ & Hs0 & Hlt & _).
  rewrite <- (reach_unique C g g n s HC Hr s0 Hs0) in Hlt. lia.
Qed.

(** X8.  Capacities nest.  The cells written by a call with a smaller
    capacity are written with the same values by a call with a larger
    one: the run for the larger capacity goes through the final state of
    the smaller and goes on from there. *)
Theorem smaller_capacity_is_a_prefix (C' C : Z) :
  3 < C' -> C' <= C -> C < 2 ^ 32 ->
  exists s' s fuel0,
    (forall g fuel, (fuel0 <= fuel)%nat ->
       generate g C' fuel = Ok s' /\ generate g C fuel = Ok s) /\
    index s' = C' /\ index s = C /\
    (forall i p, primes s' !! i = Some p -> primes s !! i = Some p).
Proof.
  intros H3 Hle HC.
  destruct (generate_total C' ltac:(lia)) as (s' & n' & f' & Hgen' & Hidx' & Hreach').
  destruct (generate_total C ltac:(lia)) as (s & n & f & Hgen & Hidx & Hreach).
  exists s', s, (Nat.max f' f). split; [|split; [exact Hidx' | split; [exact Hidx |]]].
  - intros g fuel Hfuel. split; [apply Hgen' | apply Hgen]; lia.
  - pose proof (reach_capacity_mono zero_stack C C' n' s' Hle (Hreach' zero_stack)) as Hr'.
    pose proof (reach_ends C zero_stack n n' s s' ltac:(lia) (Hreach zero_stack) Hidx Hr')
      as Hnn.
    pose proof (Hreach zero_stack) as Hr.
    replace n with ((n - n') + n')%nat in Hr by lia.
    apply (reach_extends C zero_stack n' s' ltac:(lia) Hr' _ s Hr).
Qed.

Lemma smaller_capacity_is_a_prefix_witness :
  (3 < 10 /\ 10 <= 60000 /\ 60000 < 2 ^ 32) /\
  exists s' s fuel0,
    (forall g fuel, (fuel0 <= fuel)%nat ->
       generate g 10 fuel = Ok s' /\ generate g 60000 fuel = Ok s) /\
    index s' = 10 /\ index s = 60000 /\
    (forall i p, primes s' !! i = Some p -> primes s !! i = Some p).
Proof.
  split; [lia | apply (smaller_capacity_is_a_prefix 10 60000); lia].
Defined.

End Runs.

(** * The reports, turn by turn *)

Section Reports.

Lemma io_eta {A : Type} (m : io A) : mkIO (printed m) (outcome m) = m.
Proof. destruct m. reflexivity. Qed.

Lemma elapsed_difference (start d : Z) : elapsed start (wrap64 (start + d)) = elapsed 0 d.
Proof.
  unfold elapsed, wrap64. do 3 f_equal.
  rewrite Zminus_mod_idemp_l. f_equal. lia.
Qed.

(** X9.  What a call prints and returns.  With fuel for the loop a call
    prints one line, the last prime, when [firstpass] is set and nothing
    otherwise; the value returned does not depend on [firstpass], on the
    stack or on the primes, only on the two readings of the timer, and of
    these only on their difference modulo [2^64]: a timer that rolls over
    between the readings is measured as one that did not. *)
Theorem primer_prints_only_the_last_prime (C : Z) :
  3 < C < 2 ^ 32 ->
  exists p fuel0, forall g fuel start d,
    (fuel0 <= fuel)%nat ->
    primer g C true fuel start (wrap64 (start + d)) =
      mkIO [LastPrime p] (Ok (elapsed 0 d)) /\
    primer g C false fuel start (wrap64 (start + d)) =
      mkIO [] (Ok (elapsed 0 d)).
Proof.
  intros HC. destruct (generate_total C HC) as (s & n & fuel0 & Hgen & _ & _).
  exists (candidate s), fuel0. intros g fuel start d Hfuel.
  unfold primer. unfold mbind, io_bind, mret, io_ret, printf, run. simpl.
  rewrite Hgen by exact Hfuel. simpl. rewrite elapsed_difference. split; reflexivity.
Qed.

Lemma primer_prints_only_the_last_prime_witness :
  3 < 60000 < 2 ^ 32 /\
  exists p fuel0, forall g fuel start d,
    (fuel0 <= fuel)%nat ->
    primer g 60000 true fuel start (wrap64 (start + d)) =
      mkIO [LastPrime p] (Ok (elapsed 0 d)) /\
    primer g 60000 false fuel start (wrap64 (start + d)) =
      mkIO [] (Ok (elapsed 0 d)).
Proof.
  split; [lia | apply (primer_prints_only_the_last_prime 60000); lia].
Defined.

(** The three shapes of a turn with the button pressed, given fuel for
    [primer]. *)
Lemma main_turn_first (C : Z) (fuel : nat) (s : state) (st : main_state)
      (i : turn_input) :
  (forall g, generate g C fuel = Ok s) ->
  button i = true -> passcount st = 0 ->
  main_turn C fuel st i =
    mkIO [FreeHeap (heap i); LastPrime (candidate s);
          Runtime (elapsed (start_us i) (stop_us i))]
         (Ok (mkMain 1 (elapsed (start_us i) (stop_us i))
                       (elapsed (start_us i) (stop_us i)))).
Proof.
  intros Hgen Hb H0. unfold main_turn, primer. rewrite Hb, H0.
  unfold mbind, io_bind, mret, io_ret, printf, run. simpl.
  rewrite Hgen. reflexivity.
Qed.

Lemma main_turn_later (C : Z) (fuel : nat) (s : state) (st : main_state)
      (i : turn_input) :
  (forall g, generate g C fuel = Ok s) ->
  button i = true -> 1 <= passcount st < INT_MAX ->
  main_turn C fuel st i =
    mkIO [RuntimePassAverage (elapsed (start_us i) (stop_us i)) (passcount st + 1)
            (Single.div (Single.add (total_runs st) (elapsed (start_us i) (stop_us i)))
                        (Single.of_Z (passcount st + 1)))]
         (Ok (mkMain (passcount st + 1) (elapsed (start_us i) (stop_us i))
                     (Single.add (total_runs st) (elapsed (start_us i) (stop_us i))))).
Proof.
  intros Hgen Hb Hp. unfold main_turn, primer. rewrite Hb.
  unfold mbind, io_bind, mret, io_ret, printf, run.
  destruct (Z.ltb_spec (passcount st) INT_MAX) as [_ |]; [|lia]. simpl.
  destruct (Z.eqb_spec (passcount st + 1) 1) as [|_]; [lia |].
  rewrite Hgen. reflexivity.
Qed.

Lemma main_turn_overflow (C : Z) (fuel : nat) (st : main_state) (i : turn_input) :
  button i = true -> INT_MAX <= passcount st ->
  main_turn C fuel st i = mkIO [] Undefined.
Proof.
  intros Hb Hp. unfold main_turn. rewrite Hb.
  unfold mbind, io_bind, run.
  destruct (Z.ltb_spec (passcount st) INT_MAX); [lia | reflexivity].
Qed.

Lemma main_loop_idle (C : Z) (fuel : nat) (st : main_state) (i : turn_input)
      (rest : list turn_input) :
  button i = false ->
  main_loop C fuel st (i :: rest) = main_loop C fuel st rest.
Proof.
  intros Hb. simpl. rewrite (main_turn_idle C fuel st i Hb).
  unfold mbind, io_bind. simpl. apply io_eta.
Qed.

(** X10.  Idle turns.  A turn in which the button is not pressed prints
    nothing and changes no variable: the loop over any turns is the loop
    over those with the button pressed. *)
Theorem idle_turns_change_nothing (C : Z) (fuel : nat) (st : main_state)
        (inputs : list turn_input) :
  main_loop C fuel st inputs = main_loop C fuel st (List.filter button inputs).
Proof.
  revert st. induction inputs as [|i rest IH]; intros st; [reflexivity |].
  simpl List.filter. destruct (button i) eqn:Hb.
  - simpl. unfold mbind, io_bind.
    destruct (outcome (main_turn C fuel st i)); try reflexivity.
    rewrite IH. reflexivity.
  - rewrite (main_loop_idle C fuel st i rest Hb). apply IH.
Qed.

(** After the first pass the loop does not look at the stack. *)
Lemma main_loop_later_readings (C : Z) (fuel : nat) (s : state)
      (inputs inputs' : list turn_input) :
  (forall g, generate g C fuel = Ok s) ->
  Forall2 same_readings inputs inputs' ->
  forall st, 1 <= passcount st ->
    main_loop C fuel st inputs = main_loop C fuel st inputs' /\
    forallb is_average (printed (main_loop C fuel st inputs)) = true.
Proof.
  intros Hgen. induction 1 as [|i i' rest rest' (Hb & Hh & Ht0 & Ht1) _ IH]; intros st Hp.
  - split; reflexivity.
  - destruct (button i) eqn:Hbi.
    + destruct (Z.lt_ge_cases (passcount st) INT_MAX) as [Hlt | Hge].
      * simpl main_loop.
        rewrite (main_turn_later C fuel s st i Hgen Hbi ltac:(lia)).
        rewrite (main_turn_later C fuel s st i' Hgen ltac:(congruence) ltac:(lia)).
        rewrite <- Ht0, <- Ht1.
        unfold mbind, io_bind. cbn [outcome printed].
        match goal with
        | |- context [main_loop C fuel ?st1 rest] =>
            destruct (IH st1 ltac:(simpl; lia)) as [<- Hav]
        end.
        split; [reflexivity | exact Hav].
      * simpl main_loop.
        rewrite (main_turn_overflow C fuel st i Hbi Hge).
        rewrite (main_turn_overflow C fuel st i' ltac:(congruence) Hge).
        split; reflexivity.
    + rewrite (main_loop_idle C fuel st i rest Hbi).
      rewrite (main_loop_idle C fuel st i' rest' ltac:(congruence)).
      apply (IH st Hp).
Qed.

Lemma same_readings_refl (inputs : list turn_input) :
  Forall2 same_readings inputs inputs.
Proof.
  induction inputs as [|i rest IH]; constructor; [|exact IH].
  repeat split.
Qed.

(** X11.  Uninitialised memory.  The lines printed depend only on the
    button, the heap and the timer readings of the turns: neither on what
    [this_run] and [total_runs] held at the start, which are overwritten
    by the first pass before they are read, nor on what the stack held
    under [primes].  From the first trigger on the same goes for the
    variables of [main]. *)
Theorem reports_ignore_uninitialised_memory (C : Z) :
  3 < C < 2 ^ 32 ->
  exists fuel0, forall fuel junk1 junk2 junk1' junk2' inputs inputs',
    (fuel0 <= fuel)%nat ->
    Forall2 same_readings inputs inputs' ->
    printed (main_loop C fuel (main_start junk1 junk2) inputs) =
      printed (main_loop C fuel (main_start junk1' junk2') inputs') /\
    (trigger_times inputs <> [] ->
     main_loop C fuel (main_start junk1 junk2) inputs =
       main_loop C fuel (main_start junk1' junk2') inputs').
Proof.
  intros HC. destruct (generate_total C HC) as (s & n & fuel0 & Hgen & _ & _).
  exists fuel0. intros fuel junk1 junk2 junk1' junk2' inputs inputs' Hfuel.
  assert (Hg : forall g, generate g C fuel = Ok s) by (intros g; apply Hgen, Hfuel).
  induction 1 as [|i i' rest rest' (Hb & Hh & Ht0 & Ht1) Hrest IH].
  - split; [reflexivity | intros H; contradiction H; reflexivity].
  - destruct (button i) eqn:Hbi.
    + assert (Heq : main_loop C fuel (main_start junk1 junk2) (i :: rest) =
                    main_loop C fuel (main_start junk1' junk2') (i' :: rest')).
      { simpl main_loop.
        rewrite (main_turn_first C fuel s (main_start junk1 junk2) i Hg Hbi eq_refl).
        rewrite (main_turn_first C fuel s (main_start junk1' junk2') i' Hg
                   ltac:(congruence) eq_refl).
        rewrite <- Hh, <- Ht0, <- Ht1.
        unfold mbind, io_bind. cbn [outcome printed].
        match goal with
        | |- context [main_loop C fuel ?st1 rest] =>
            destruct (main_loop_later_readings C fuel s rest rest' Hg Hrest st1
                        ltac:(simpl; lia)) as [<- _]
        end.
        reflexivity. }
      split; [rewrite Heq; reflexivity | intros _; exact Heq].
    + rewrite (main_loop_idle C fuel _ i rest Hbi).
      rewrite (main_loop_idle C fuel _ i' rest' ltac:(congruence)).
      simpl trigger_times. rewrite Hbi. exact IH.
Qed.

Lemma reports_ignore_uninitialised_memory_witness :
  3 < 60000 < 2 ^ 32 /\
  exists fuel0, forall fuel junk1 junk2 junk1' junk2' inputs inputs',
    (fuel0 <= fuel)%nat ->
    Forall2 same_readings inputs inputs' ->
    printed (main_loop 60000 fuel (main_start junk1 junk2) inputs) =
      printed (main_loop 60000 fuel (main_start junk1' junk2') inputs') /\
    (trigger_times inputs <> [] ->
     main_loop 60000 fuel (main_start junk1 junk2) inputs =
       main_loop 60000 fuel (main_start junk1' junk2') inputs').
Proof.
  split; [lia | apply (reports_ignore_uninitialised_memory 60000); lia].
Defined.

(** X12.  The first report comes once.  Nothing is printed before the first
    trigger; the first trigger prints the free heap read in its turn, the
    last prime and its runtime, in this order; every line after these is
    one with a pass count and an average. *)
Theorem first_report_comes_once (C : Z) :
  3 < C < 2 ^ 32 ->
  exists fuel0 p, forall fuel junk1 junk2 inputs,
    (fuel0 <= fuel)%nat ->
    match List.filter button inputs with
    | [] => printed (main_loop C fuel (main_start junk1 junk2) inputs) = []
    | i :: _ =>
        exists rest,
          printed (main_loop C fuel (main_start junk1 junk2) inputs) =
            FreeHeap (heap i) :: LastPrime p ::
            Runtime (elapsed (start_us i) (stop_us i)) :: rest /\
          forallb is_average rest = true
    end.
Proof.
  intros HC. destruct (generate_total C HC) as (s & n & fuel0 & Hgen & _ & _).
  exists fuel0, (candidate s). intros fuel junk1 junk2 inputs Hfuel.
  assert (Hg : forall g, generate g C fuel = Ok s) by (intros g; apply Hgen, Hfuel).
  induction inputs as [|i rest IH]; [reflexivity |].
  simpl List.filter. destruct (button i) eqn:Hbi.
  - simpl main_loop.
    rewrite (main_turn_first C fuel s (main_start junk1 junk2) i Hg Hbi eq_refl).
    unfold mbind, io_bind. cbn [outcome printed].
    match goal with
    | |- context [main_loop C fuel ?st1 rest] =>
        destruct (main_loop_later_readings C fuel s rest rest Hg
                    (same_readings_refl rest) st1 ltac:(simpl; lia)) as [_ Hav]
    end.
    eexists. split; [reflexivity | exact Hav].
  - rewrite (main_loop_idle C fuel _ i rest Hbi). exact IH.
Qed.

Lemma first_report_comes_once_witness :
  3 < 60000 < 2 ^ 32 /\
  exists fuel0 p, forall fuel junk1 junk2 inputs,
    (fuel0 <= fuel)%nat ->
    match List.filter button inputs with
    | [] => printed (main_loop 60000 fuel (main_start junk1 junk2) inputs) = []
    | i :: _ =>
        exists rest,
          printed (main_loop 60000 fuel (main_start junk1 junk2) inputs) =
            FreeHeap (heap i) :: LastPrime p ::
            Runtime (elapsed (start_us i) (stop_us i)) :: rest /\
          forallb is_average rest = true
    end.
Proof.
  split; [lia | apply (first_report_comes_once 60000); lia].
Defined.

(** X13.  The pass counter.  [passcount] is an [int] that is never reset:
    the trigger that would take it past [INT_MAX] overflows it, which is
    undefined, whatever the turns before it did. *)
Theorem passcount_overflows (C : Z) :
  3 < C < 2 ^ 32 ->
  exists fuel0, forall fuel st inputs,
    (fuel0 <= fuel)%nat ->
    0 <= passcount st <= INT_MAX ->
    INT_MAX < passcount st + Z.of_nat (length (trigger_times inputs)) ->
    outcome (main_loop C fuel st inputs) = Undefined.
Proof.
  intros HC. destruct (generate_total C HC) as (s & n & fuel0 & Hgen & _ & _).
  exists fuel0. intros fuel st inputs Hfuel.
  assert (Hg : forall g, generate g C fuel = Ok s) by (intros g; apply Hgen, Hfuel).
  revert st. induction inputs as [|i rest IH]; intros st Hp Hover.
  - simpl in Hover. lia.
  - destruct (button i) eqn:Hbi.
    + simpl trigger_times in Hover. rewrite Hbi in Hover. simpl length in Hover.
      simpl main_loop.
      destruct (Z.eq_dec (passcount st) INT_MAX) as [Hmax | Hlt].
      * rewrite (main_turn_overflow C fuel st i Hbi ltac:(lia)). reflexivity.
      * destruct (Z.eq_dec (passcount st) 0) as [H0 | H0].
        -- rewrite (main_turn_first C fuel s st i Hg Hbi H0).
           unfold mbind, io_bind. cbn [outcome printed].
           apply IH; simpl; unfold INT_MAX in *; lia.
        -- rewrite (main_turn_later C fuel s st i Hg Hbi ltac:(lia)).
           unfold mbind, io_bind. cbn [outcome printed].
           apply IH; simpl; lia.
    + rewrite (main_loop_idle C fuel st i rest Hbi).
      simpl trigger_times in Hover. rewrite Hbi in Hover. apply IH; assumption.
Qed.

Lemma passcount_overflows_witness :
  3 < 60000 < 2 ^ 32 /\
  exists fuel0, forall fuel st inputs,
    (fuel0 <= fuel)%nat ->
    0 <= passcount st <= INT_MAX ->
    INT_MAX < passcount st + Z.of_nat (length (trigger_times inputs)) ->
    outcome (main_loop 60000 fuel st inputs) = Undefined.
Proof.
  split; [lia | apply (passcount_overflows 60000); lia].
Defined.

(** X14.  The free heap.  With the heap laid out below the stack limit,
    [getTotalHeap] is the distance between the two addresses and
    [getFreeHeap] is that total less the bytes in use; the subtraction is
    not checked: when more bytes are in use than the total, the result
    wraps around to a value above the total. *)
Theorem free_heap_is_not_checked (StackLimit bss_end uordblks : Z) :
  0 <= StackLimit - bss_end < 2 ^ 31 -> 0 <= uordblks < 2 ^ 32 ->
  exists total free,
    getTotalHeap StackLimit bss_end = Ok total /\
    getFreeHeap StackLimit bss_end uordblks = Ok free /\
    total = StackLimit - bss_end /\
    0 <= free < 2 ^ 32 /\
    (uordblks <= total -> free = total - uordblks) /\
    (total < uordblks -> free = 2 ^ 32 - (uordblks - total) /\ total < free).
Proof.
  intros Hd Hu. unfold getFreeHeap, getTotalHeap. cbv zeta.
  destruct (Z.leb_spec (- 2 ^ 31) (StackLimit - bss_end)); [|lia].
  destruct (Z.ltb_spec (StackLimit - bss_end) (2 ^ 31)); [|lia].
  simpl andb. cbv iota. simpl.
  rewrite (wrap32_small (StackLimit - bss_end)) by lia.
  eexists. eexists. split; [reflexivity |]. split; [reflexivity |].
  split; [reflexivity |]. unfold wrap32.
  split; [apply Z.mod_pos_bound; lia |].
  split; intros Hcmp.
  - apply Z.mod_small. lia.
  - rewrite <- (Z.mod_add _ 1) by lia. rewrite Z.mod_small by lia. lia.
Qed.

Lemma free_heap_is_not_checked_witness :
  (0 <= 1000 - 200 < 2 ^ 31 /\ 0 <= 900 < 2 ^ 32) /\
  exists total free,
    getTotalHeap 1000 200 = Ok total /\
    getFreeHeap 1000 200 900 = Ok free /\
    total = 1000 - 200 /\
    0 <= free < 2 ^ 32 /\
    (900 <= total -> free = total - 900) /\
    (total < 900 -> free = 2 ^ 32 - (900 - total) /\ total < free).
Proof.
  split; [lia | apply (free_heap_is_not_checked 1000 200 900); lia].
Defined.

End Reports.

(** * The numbers reported *)

Section FiniteFloats.

Lemma Zdigits2_le (z k : Z) : 0 < z < 2 ^ k -> 0 <= k -> Zdigits2 z <= k.
Proof.
  intros Hz Hk. pose proof (Zdigits2_spec z ltac:(lia)) as Hd.
  destruct (Z_le_gt_dec (Zdigits2 z) k) as [|Hgt]; [assumption |].
  assert (2 ^ k <= 2 ^ (Zdigits2 z - 1)) by (apply Z.pow_le_mono_r; lia). lia.
Qed.

Lemma Zdigits2_ge_1 (z : Z) : 0 < z -> 1 <= Zdigits2 z.
Proof. destruct z; simpl; lia. Qed.

(** Bringing a positive mantissa down to the precision: what is left is
    below [2^prec], and the exponent is the larger of the old one and the
    one that leaves [prec] digits. *)
Lemma shr_fexp_bounds (prec emax m e : Z) (l : location) :
  1 <= prec -> 0 < m -> emin prec emax <= e ->
  0 < shr_m (fst (shr_fexp prec emax m e l)) < 2 ^ prec /\
  snd (shr_fexp prec emax m e l) = Z.max e (Zdigits2 m + e - prec).
Proof.
  intros Hprec Hm He.
  destruct (shr_fexp_positive prec emax m e l Hprec Hm He) as [Hpos _].
  split; [split; [exact Hpos |] |]; clear Hpos; unfold shr_fexp, shr;
    pose proof (Zdigits2_spec m Hm) as Hd;
    pose proof (Zdigits2_ge_1 m Hm) as Hd1;
    destruct (fexp prec emax (Zdigits2 m + e) - e) as [|k|k] eqn:E;
    cbn [fst snd]; rewrite ?shr_m_of_loc; unfold fexp in E.
  - assert (2 ^ Zdigits2 m <= 2 ^ prec) by (apply Z.pow_le_mono_r; lia). lia.
  - rewrite iter_shr_1_div by (rewrite shr_m_of_loc; lia).
    rewrite shr_m_of_loc.
    assert (Hk : Zpos k = Zdigits2 m - prec) by lia.
    apply Z.div_lt_upper_bound; [apply Z.pow_pos_nonneg; lia |].
    rewrite <- Z.pow_add_r by lia.
    replace (Zpos k + prec) with (Zdigits2 m) by lia. lia.
  - assert (2 ^ Zdigits2 m <= 2 ^ prec) by (apply Z.pow_le_mono_r; lia). lia.
  - lia.
  - lia.
  - lia.
Qed.

(** Rounding a positive mantissa whose exponent is in range gives a
    finite positive float. *)
Lemma binary_round_aux_finite (prec emax m e : Z) (l : location) :
  1 <= prec -> 0 < m -> emin prec emax <= e ->
  Z.max e (Zdigits2 m + e - prec) < emax - prec ->
  exists m' e',
    binary_round_aux prec emax false m e l = S754_finite false m' e' /\
    Zpos m' < 2 ^ prec /\
    Z.max e (Zdigits2 m + e - prec) <= e' <= Z.max e (Zdigits2 m + e - prec) + 1.
Proof.
  intros Hprec Hm He Hmax. unfold binary_round_aux.
  destruct (shr_fexp_bounds prec emax m e l Hprec Hm He) as [H1 H1e].
  destruct (shr_fexp prec emax m e l) as [mrs' e1]. cbn [fst snd] in H1, H1e.
  set (r := round_nearest_even (shr_m mrs') (loc_of_shr_record mrs')).
  assert (Hr : 0 < r <= 2 ^ prec)
    by (unfold r; destruct (round_nearest_even_range (shr_m mrs') (loc_of_shr_record mrs'));
        lia).
  assert (He1 : emin prec emax <= e1) by lia.
  destruct (shr_fexp_bounds prec emax r e1 loc_Exact Hprec ltac:(lia) He1) as [H2 H2e].
  assert (Hdr : 1 <= Zdigits2 r <= prec + 1).
  { split; [apply Zdigits2_ge_1; lia |].
    apply Zdigits2_le; [|lia]. rewrite Z.pow_add_r, Z.pow_1_r by lia. lia. }
  destruct (shr_fexp prec emax r e1 loc_Exact) as [mrs'' e2]. cbn [fst snd] in H2, H2e.
  destruct (shr_m mrs'') as [|p|p]; try lia.
  destruct (Z.leb_spec e2 (emax - prec)); [|lia].
  exists p, e2. split; [reflexivity |]. split; [lia | lia].
Qed.

Lemma shl_align_bounds (mx : positive) (ex ex' : Z) :
  snd (shl_align mx ex ex') = Z.min ex ex' /\
  Zdigits2 (Zpos (fst (shl_align mx ex ex'))) + snd (shl_align mx ex ex') =
    Zdigits2 (Zpos mx) + ex.
Proof.
  unfold shl_align. destruct (ex' - ex) as [|k|k] eqn:E; cbn [fst snd];
    try (split; lia).
  split; [lia |]. rewrite iter_xO.
  pose proof (Zdigits2_spec (Zpos mx) ltac:(lia)) as Hd.
  pose proof (Zdigits2_ge_1 (Zpos mx) ltac:(lia)) as Hd1.
  pose proof (pow_scale (Zdigits2 (Zpos mx) - 1) (Zdigits2 (Zpos mx)) (Zpos mx) (Zpos k)
                ltac:(lia) ltac:(lia) ltac:(lia) Hd) as H.
  rewrite (Zdigits2_bounds (Zpos mx * 2 ^ Zpos k) (Zdigits2 (Zpos mx) + Zpos k));
    [lia | lia |].
  replace (Zdigits2 (Zpos mx) + Zpos k - 1) with (Zdigits2 (Zpos mx) - 1 + Zpos k) by lia.
  exact H.
Qed.

(** Rounding a positive number that is neither too small nor too large
    for the format gives a finite positive float. *)
Lemma binary_round_finite (prec emax : Z) (mx : positive) (ex : Z) :
  1 <= prec -> 2 <= emax -> emin prec emax <= ex ->
  Zdigits2 (Zpos mx) + ex < emax ->
  exists m' e',
    binary_round prec emax false mx ex = S754_finite false m' e' /\
    Zpos m' < 2 ^ prec /\
    Zdigits2 (Zpos mx) + ex - prec <= e' <=
      Z.max ex (Zdigits2 (Zpos mx) + ex - prec) + 1.
Proof.
  intros Hprec Hemax Hex Hmag. unfold binary_round.
  change (Zpos (digits2_pos mx)) with (Zdigits2 (Zpos mx)).
  destruct (shl_align_bounds mx ex (fexp prec emax (Zdigits2 (Zpos mx) + ex)))
    as [Hez Hdz].
  destruct (shl_align mx ex _) as [mz ez]. cbn [fst snd] in Hez, Hdz.
  assert (Hf : fexp prec emax (Zdigits2 (Zpos mx) + ex) =
               Z.max (Zdigits2 (Zpos mx) + ex - prec) (emin prec emax))
    by reflexivity.
  assert (Hemin : emin prec emax < emax - prec) by (unfold emin; lia).
  destruct (binary_round_aux_finite prec emax (Zpos mz) ez loc_Exact Hprec
              ltac:(lia) ltac:(lia) ltac:(lia)) as (m' & e' & -> & Hm' & He').
  exists m', e'. split; [reflexivity |]. split; [exact Hm' | lia].
Qed.

(** The quotient of two finite positive floats, when it neither
    underflows nor overflows. *)
Lemma sfdiv_finite (prec emax : Z) (m1 m2 : positive) (e1 e2 : Z) :
  1 <= prec ->
  emin prec emax <= Zdigits2 (Zpos m1) + e1 - (Zdigits2 (Zpos m2) + e2) - prec ->
  emin prec emax <= e1 - e2 < emax - prec ->
  Zdigits2 (Zpos m1) + e1 - (Zdigits2 (Zpos m2) + e2) + 1 < emax ->
  exists m' e',
    SFdiv prec emax (S754_finite false m1 e1) (S754_finite false m2 e2) =
      S754_finite false m' e' /\
    Zpos m' < 2 ^ prec /\
    Z.min (Zdigits2 (Zpos m1) + e1 - (Zdigits2 (Zpos m2) + e2) - prec) (e1 - e2)
      <= e' <= Z.max (e1 - e2) (Zdigits2 (Zpos m1) + e1 - (Zdigits2 (Zpos m2) + e2) + 1 - prec) + 1.
Proof.
  intros Hprec Hunder He Hover. unfold SFdiv, SFdiv_core_binary. cbn [xorb].
  set (d1 := Zdigits2 (Zpos m1)) in *. set (d2 := Zdigits2 (Zpos m2)) in *.
  pose proof (Zdigits2_spec (Zpos m1) ltac:(lia)) as Hd1. fold d1 in Hd1.
  pose proof (Zdigits2_spec (Zpos m2) ltac:(lia)) as Hd2. fold d2 in Hd2.
  pose proof (Zdigits2_ge_1 (Zpos m1) ltac:(lia)) as H11. fold d1 in H11.
  pose proof (Zdigits2_ge_1 (Zpos m2) ltac:(lia)) as H12. fold d2 in H12.
  replace (fexp prec emax (d1 + e1 - (d2 + e2))) with (d1 + e1 - (d2 + e2) - prec)
    by (unfold fexp; lia).
  set (e' := Z.min (d1 + e1 - (d2 + e2) - prec) (e1 - e2)).
  set (s := e1 - e2 - e').
  assert (Hs : d2 - d1 + prec <= s) by (unfold s, e'; lia).
  assert (Hs0 : 0 <= s) by (unfold s, e'; lia).
  set (m' := match s with Z0 => Zpos m1 | Zpos _ => Z.shiftl (Zpos m1) s | Zneg _ => 0 end).
  assert (Hm' : m' = Zpos m1 * 2 ^ s).
  { unfold m'. destruct s as [|k|k] eqn:Es; try lia.
    rewrite Z.shiftl_mul_pow2 by lia. reflexivity. }
  pose proof (pow_scale (d1 - 1) d1 (Zpos m1) s ltac:(lia) ltac:(lia) Hs0 Hd1) as Hsc.
  rewrite <- Hm' in Hsc.
  pose proof (Z_div_mod m' (Zpos m2) ltac:(lia)) as Hdm.
  destruct (Z.div_eucl m' (Zpos m2)) as [q r].
  destruct Hdm as [Hq Hr].
  assert (Hle : 2 ^ d2 <= 2 ^ (d1 - 1 + s)) by (apply Z.pow_le_mono_r; lia).
  assert (Hq0 : 0 < q) by nia.
  assert (Hqd : Zdigits2 q <= d1 + s - d2 + 1).
  { apply Zdigits2_le; [|lia]. split; [exact Hq0 |].
    assert (Hp : 2 ^ (d1 + s) = 2 ^ (d1 + s - d2 + 1) * 2 ^ (d2 - 1))
      by (rewrite <- Z.pow_add_r by lia; f_equal; lia).
    assert (0 < 2 ^ (d1 + s - d2 + 1)) by (apply Z.pow_pos_nonneg; lia).
    nia. }
  pose proof (Zdigits2_ge_1 q Hq0) as Hq1.
  destruct (binary_round_aux_finite prec emax q e' (new_location (Zpos m2) r)
              Hprec Hq0 ltac:(unfold e'; lia) ltac:(unfold s, e' in *; lia))
    as (mz & ez & -> & Hmz & Hez).
  exists mz, ez. split; [reflexivity |]. split; [exact Hmz |].
  unfold s, e' in *. lia.
Qed.

Lemma double_of_Z_finite (w : Z) :
  0 < w < 2 ^ 64 ->
  exists m e, Double.of_Z w = S754_finite false m e /\
              Zpos m < 2 ^ 53 /\ -52 <= e <= 12.
Proof.
  intros Hw. destruct w as [|p|p]; try lia.
  unfold Double.of_Z, binary_normalize.
  pose proof (Zdigits2_ge_1 (Zpos p) ltac:(lia)) as Hd1.
  pose proof (Zdigits2_le (Zpos p) 64 Hw ltac:(lia)) as Hd.
  destruct (binary_round_finite Double.prec Double.emax p 0)
    as (m & e & -> & Hm & He);
    unfold Double.prec, Double.emax, emin in *; try lia.
  exists m, e. split; [reflexivity |]. split; [exact Hm | lia].
Qed.

(** A time that is not zero: the quotient by a million is a finite
    positive [double], and so is its narrowing to [float]. *)
Lemma seconds_finite (w : Z) :
  0 < w < 2 ^ 64 ->
  exists m e,
    Single.of_double (Double.div (Double.of_Z w) (Double.of_Z 1000000)) =
      S754_finite false m e /\ Zpos m < 2 ^ 24.
Proof.
  intros Hw. destruct (double_of_Z_finite w Hw) as (m1 & e1 & -> & Hm1 & He1).
  rewrite (of_Z_small 1000000) by lia.
  change (Zdigits2 1000000) with 20.
  change (Z.to_pos (1000000 * 2 ^ (53 - 20))) with 8589934592000000%positive.
  change (20 - 53) with (-33).
  pose proof (Zdigits2_ge_1 (Zpos m1) ltac:(lia)) as Hd1.
  pose proof (Zdigits2_le (Zpos m1) 53 ltac:(lia) ltac:(lia)) as Hd.
  assert (Hd2 : Zdigits2 (Zpos 8589934592000000) = 53) by reflexivity.
  unfold Double.div.
  destruct (sfdiv_finite Double.prec Double.emax m1 8589934592000000 e1 (-33))
    as (m3 & e3 & -> & Hm3 & He3);
    rewrite ?Hd2; unfold Double.prec, Double.emax, emin in *; try lia.
  rewrite Hd2 in He3.
  pose proof (Zdigits2_ge_1 (Zpos m3) ltac:(lia)) as Hd31.
  pose proof (Zdigits2_le (Zpos m3) 53 ltac:(lia) ltac:(lia)) as Hd3.
  unfold Single.of_double.
  destruct (binary_round_finite Single.prec Single.emax m3 e3)
    as (m & e & -> & Hm & _);
    unfold Single.prec, Single.emax, emin in *; try lia.
  exists m, e. split; [reflexivity | exact Hm].
Qed.

Lemma elapsed_finite (start stop : Z) :
  finite_nonnegative (elapsed start stop) = true.
Proof.
  unfold elapsed.
  pose proof (Z.mod_pos_bound (stop - start) (2 ^ 64) ltac:(lia)) as Hw.
  fold (wrap64 (stop - start)) in Hw.
  destruct (Z.eq_dec (wrap64 (stop - start)) 0) as [-> | Hne]; [reflexivity |].
  destruct (seconds_finite (wrap64 (stop - start)) ltac:(lia)) as (m & e & -> & _).
  reflexivity.
Qed.

(** X15.  The time returned.  The value [primer] returns is a finite
    float: [+0] when the two readings of the timer are equal modulo
    [2^64], and a finite number above zero otherwise; it is never a NaN,
    an infinity or a negative number, and a time that is not zero is
    never rounded down to zero. *)
Theorem elapsed_is_finite (start stop : Z) :
  if wrap64 (stop - start) =? 0
  then elapsed start stop = S754_zero false
  else exists m e, elapsed start stop = S754_finite false m e /\ Zpos m < 2 ^ 24.
Proof.
  unfold elapsed.
  pose proof (Z.mod_pos_bound (stop - start) (2 ^ 64) ltac:(lia)) as Hw.
  fold (wrap64 (stop - start)) in Hw.
  destruct (Z.eqb_spec (wrap64 (stop - start)) 0) as [-> | Hne]; [reflexivity |].
  apply seconds_finite. lia.
Qed.

Lemma single_of_Z_finite (p : Z) :
  0 < p <= INT_MAX -> exists m e, Single.of_Z p = S754_finite false m e.
Proof.
  intros Hp. unfold INT_MAX in Hp. destruct p as [|r|r]; try lia.
  unfold Single.of_Z, binary_normalize.
  pose proof (Zdigits2_le (Zpos r) 31 ltac:(lia) ltac:(lia)) as Hd.
  destruct (binary_round_finite Single.prec Single.emax r 0)
    as (m & e & -> & _);
    unfold Single.prec, Single.emax, emin in *; try lia.
  exists m, e. reflexivity.
Qed.

Lemma single_add_nonneg (x y : spec_float) :
  nonnegative x = true -> nonnegative y = true ->
  nonnegative (Single.add x y) = true.
Proof.
  intros Hx Hy. unfold Single.add, SFadd.
  destruct x as [sx|sx| |sx mx ex], y as [sy|sy| |sy my ey];
    simpl in Hx, Hy; try discriminate; try assumption; try reflexivity.
  - destruct sx, sy; reflexivity.
  - destruct sx, sy; try discriminate; reflexivity.
  - destruct sx, sy; try discriminate.
    apply binary_normalize_nonneg. simpl. lia.
Qed.

Lemma single_div_nonneg (x : spec_float) (my : positive) (ey : Z) :
  nonnegative x = true ->
  nonnegative (Single.div x (S754_finite false my ey)) = true.
Proof.
  intros Hx. unfold Single.div, SFdiv.
  destruct x as [s|s| |s mx ex]; simpl in Hx; try discriminate.
  - reflexivity.
  - destruct s; [discriminate | reflexivity].
  - destruct s; [discriminate |].
    unfold SFdiv_core_binary.
    set (m' := match _ with Z0 => _ | Zpos _ => _ | Zneg _ => _ end).
    assert (Hm' : 0 <= m').
    { unfold m'. destruct (_ - _) as [|k|k]; try lia.
      rewrite Z.shiftl_mul_pow2 by lia.
      assert (0 < 2 ^ Zpos k) by (apply Z.pow_pos_nonneg; lia). lia. }
    pose proof (Z_div_mod m' (Zpos my) ltac:(lia)) as Hdm.
    destruct (Z.div_eucl m' (Zpos my)) as [q r].
    apply binary_round_aux_nonneg. simpl. nia.
Qed.

Lemma finite_nonnegative_nonnegative (x : spec_float) :
  finite_nonnegative x = true -> nonnegative x = true.
Proof. destruct x; simpl; congruence. Qed.

(** From the first pass on the total is a number not below zero, and so
    is every average printed. *)
Lemma main_loop_numbers (C : Z) (fuel : nat) (inputs : list turn_input) :
  forall st,
    passcount st = 0 \/ (1 <= passcount st /\ nonnegative (total_runs st) = true) ->
    forallb sound_numbers (printed (main_loop C fuel st inputs)) = true.
Proof.
  induction inputs as [|i rest IH]; intros st Hst; [reflexivity |].
  destruct (button i) eqn:Hb;
    [|rewrite (main_loop_idle C fuel st i rest Hb); apply IH, Hst].
  pose proof (elapsed_finite (start_us i) (stop_us i)) as He.
  pose proof (finite_nonnegative_nonnegative _ He) as Hen.
  simpl main_loop. unfold main_turn, primer. rewrite Hb.
  unfold mbind, io_bind, mret, io_ret, printf, run.
  destruct (Z.ltb_spec (passcount st) INT_MAX) as [Hlt | Hge];
    cbn [outcome printed]; [|reflexivity].
  destruct (Z.eqb_spec (passcount st + 1) 1) as [H1 | H1]; cbn [outcome printed app];
    destruct (generate (stack i) C fuel) as [s | |]; cbn [outcome printed app];
    try reflexivity.
  - cbn [forallb sound_numbers andb]. rewrite He. cbn [andb].
    rewrite IH; [reflexivity |]. right. simpl. split; [lia | exact Hen].
  - destruct Hst as [H0 | [Hp Htot]]; [lia |].
    destruct (single_of_Z_finite (passcount st + 1) ltac:(lia)) as (m & e & Hf).
    pose proof (single_add_nonneg _ _ Htot Hen) as Hsum.
    cbn [forallb sound_numbers]. rewrite He, Hf.
    rewrite (single_div_nonneg _ m e Hsum). cbn [andb].
    rewrite IH; [reflexivity |]. right. simpl. split; [lia | exact Hsum].
Qed.

(** X16.  The numbers printed.  Whatever the turns, the fuel and the
    values [this_run] and [total_runs] start with, every runtime printed
    is a finite number not below zero and every average printed is a
    number not below zero: no NaN and no negative number is ever
    printed. *)
Theorem reports_are_numbers (C : Z) (fuel : nat) (junk1 junk2 : spec_float)
        (inputs : list turn_input) :
  forallb sound_numbers (printed (main_loop C fuel (main_start junk1 junk2) inputs)) = true.
Proof.
  apply main_loop_numbers. left. reflexivity.
Qed.

End FiniteFloats.
